(** * Subword vocabulary induction of [bpe_tokenizer.c]

    A shallow embedding of the pair hash map, the vocabulary store, the
    pair-counting pass, the best-pair selection, the merge-application pass
    and the induction loop of [src/bpe_tokenizer.c], followed by the
    properties of the specification that concern them.

    Conventions of the embedding.
    - A wide string ([wchar_t *]) is the list of the wide characters that
      precede its terminating null; a wide character is its code as a [Z].
    - [int] counters ([count], [freq]) are [Z]; the model does not cover
      signed overflow, which the C standard leaves undefined.
    - Allocation ([malloc], [calloc], [realloc], [wcsdup]) succeeds.
    - The per-partition mutexes protect calls that the program issues from a
      single thread; they carry no data and are left out.
    - [wcstok] keeps its position between calls (the program passes it no
      save pointer) and hands out the maximal runs of characters that are not
      delimiters.
    - [swprintf] into an array of [n] wide characters stores the first
      [n - 1] characters of the formatted text and the terminating null.
    - A write past the end of a fixed-size array or of an allocated block is
      undefined behaviour; the operations that can do so return [None] there.
    - [tokenize] is modelled from the wide text that [mbstowcs] returns, and
      [towlower], which depends on the locale, is a parameter. *)

From Stdlib Require Import String Ascii.
From Stdlib Require Import ZArith List Bool Lia Permutation.
Import ListNotations.
Local Open Scope Z_scope.

(** ** Wide characters and strings *)

Definition wchar_t : Type := Z.
Definition wstring : Type := list wchar_t.

(** A wide literal [L"..."] over the ASCII range. *)
Definition L (s : string) : wstring :=
  map (fun c => Z.of_nat (nat_of_ascii c)) (list_ascii_of_string s).

Definition space : wchar_t := 32.

(** [wcscmp (a, b) == 0] *)
Fixpoint wcs_eqb (a b : wstring) : bool :=
  match a, b with
  | [], [] => true
  | x :: a', y :: b' => (x =? y) && wcs_eqb a' b'
  | _, _ => false
  end.

(** ** Constants of the program *)

Definition MAX_TOKENS : Z := 100000.
Definition MAX_TOKEN_LEN : Z := 128.
Definition MAX_PAIR_LEN : Z := 256.
Definition HASH_SIZE : Z := 10000.
Definition MAX_VOCAB_SIZE : Z := 50000.
Definition MIN_TOKEN_FREQ : Z := 2.

(** The length of the array [symbols] of the counting pass
    ([wchar_t *symbols[256]]). *)
Definition MAX_SYMBOLS : Z := 256.

(** Conversion to [unsigned int] and [uint32_t]. *)
Definition to_uint32 (z : Z) : Z := z mod 2 ^ 32.

(** ** Library functions on wide strings *)

(** [swprintf (buf, n, fmt, ...)], given the formatted text: at most [n - 1]
    wide characters are stored, followed by the terminating null. *)
Definition swprintf (n : Z) (formatted : wstring) : wstring :=
  firstn (Z.to_nat (n - 1)) formatted.

(** [wcscat (dst, src)] into an array of [cap] wide characters. *)
Definition wcscat (cap : Z) (dst src : wstring) : option wstring :=
  if Z.of_nat (length dst) + Z.of_nat (length src) <? cap
  then Some (dst ++ src)
  else None.

(** The successive results of [wcstok (s, L" ", ...)], [wcstok (NULL, L" ", ...)],
    ... up to the first [NULL]; [cur] is the token being read. *)
Fixpoint wcstok_from (cur s : wstring) : list wstring :=
  match s with
  | [] => match cur with [] => [] | _ :: _ => [cur] end
  | c :: s' =>
      if c =? space
      then match cur with
           | [] => wcstok_from [] s'
           | _ :: _ => cur :: wcstok_from [] s'
           end
      else wcstok_from (cur ++ [c]) s'
  end.

Definition wcstok_all (s : wstring) : list wstring := wcstok_from [] s.

(** ** Data structures *)

Module VocabEntry.

Record t : Type := mk { token : wstring; id : Z; freq : Z }.

End VocabEntry.

Module BPE_Pair.

(** The field [next] is the tail of the chain the entry is in. *)
Record t : Type := mk { pair : wstring; count : Z; id : Z }.

End BPE_Pair.

(** The array [table] of [HASH_SIZE] chain heads, by partition index; a
    [NULL] head is the empty chain. *)
Definition BPE_HashMap : Type := Z -> list BPE_Pair.t.

(** The globals [vocabulary] and [vocab_size]. *)
Definition Vocabulary : Type := list VocabEntry.t.
Definition vocab_size (vocabulary : Vocabulary) : Z := Z.of_nat (length vocabulary).

(** ** The pair hash map *)

Definition hash_step (hash_val : Z) (c : wchar_t) : Z :=
  to_uint32 (to_uint32 (to_uint32 (Z.shiftl hash_val 5) + hash_val) + to_uint32 c).

Definition hash (pair : wstring) : Z :=
  fold_left hash_step pair 5381 mod HASH_SIZE.

Definition create_bpe_hashmap : BPE_HashMap := fun _ => [].

Definition set_chain (map : BPE_HashMap) (index : Z) (chain : list BPE_Pair.t)
  : BPE_HashMap :=
  fun i => if i =? index then chain else map i.

(** The scan of a chain by [add_pair]: the chain with the count of the first
    entry that holds [pair] incremented, [None] when no entry holds it. *)
Fixpoint chain_increment (pair : wstring) (chain : list BPE_Pair.t)
  : option (list BPE_Pair.t) :=
  match chain with
  | [] => None
  | entry :: next =>
      if wcs_eqb (BPE_Pair.pair entry) pair
      then Some (BPE_Pair.mk (BPE_Pair.pair entry) (BPE_Pair.count entry + 1)
                             (BPE_Pair.id entry) :: next)
      else option_map (cons entry) (chain_increment pair next)
  end.

Definition add_pair (map : BPE_HashMap) (pair : wstring) (id : Z) : BPE_HashMap :=
  let index := hash pair in
  match chain_increment pair (map index) with
  | Some chain => set_chain map index chain
  | None => set_chain map index (BPE_Pair.mk pair 1 id :: map index)
  end.

(** The partition indices in the order of the loop [for (i = 0; i < HASH_SIZE; i++)]. *)
Fixpoint indices_from (n : nat) (i : Z) : list Z :=
  match n with
  | O => []
  | S n' => i :: indices_from n' (i + 1)
  end.

Definition partitions : list Z := indices_from (Z.to_nat HASH_SIZE) 0.

Definition better (best : wstring * Z) (entry : BPE_Pair.t) : wstring * Z :=
  if BPE_Pair.count entry >? snd best
  then (BPE_Pair.pair entry, BPE_Pair.count entry)
  else best.

(** The result is [(best_pair, best_count)]. *)
Definition find_most_frequent_pair (map : BPE_HashMap) : wstring * Z :=
  fold_left (fun best i => fold_left better (map i) best) partitions ([], 0).

(** ** The vocabulary store *)

(** The scan of [add_to_vocabulary]: the store with the frequency of the first
    entry that holds [token] incremented, [None] when no entry holds it. *)
Fixpoint increment_freq (token : wstring) (vocabulary : Vocabulary)
  : option Vocabulary :=
  match vocabulary with
  | [] => None
  | e :: rest =>
      if wcs_eqb (VocabEntry.token e) token
      then Some (VocabEntry.mk (VocabEntry.token e) (VocabEntry.id e)
                               (VocabEntry.freq e + 1) :: rest)
      else option_map (cons e) (increment_freq token rest)
  end.

Definition add_to_vocabulary (vocabulary : Vocabulary) (token : wstring)
  : Vocabulary :=
  match increment_freq token vocabulary with
  | Some vocabulary' => vocabulary'
  | None =>
      if vocab_size vocabulary <? MAX_VOCAB_SIZE
      then vocabulary
             ++ [VocabEntry.mk token (to_uint32 (vocab_size vocabulary)) 1]
      else vocabulary
  end.

(** The effect on the store of the loop of [tokenize] over the lower-cased
    tokens of the text. *)
Definition tokenize (tokens : list wstring) (vocabulary : Vocabulary)
  : Vocabulary :=
  fold_left add_to_vocabulary (firstn (Z.to_nat MAX_TOKENS) tokens) vocabulary.

(** ** The pair-counting pass *)

(** [swprintf (pair, MAX_PAIR_LEN, L"%ls %ls", a, b)] *)
Definition pair_key (a b : wstring) : wstring :=
  swprintf MAX_PAIR_LEN (a ++ [space] ++ b).

(** [for (k = 0; k < freq; k++) add_pair (map, pair, id);] *)
Fixpoint add_pair_times (k : nat) (map : BPE_HashMap) (pair : wstring) (id : Z)
  : BPE_HashMap :=
  match k with
  | O => map
  | S k' => add_pair_times k' (add_pair map pair id) pair id
  end.

(** The loop over [j] of the counting pass, from the symbols still to visit. *)
Fixpoint count_symbols (symbols : list wstring) (freq id : Z) (map : BPE_HashMap)
  : BPE_HashMap :=
  match symbols with
  | a :: (b :: _) as rest =>
      count_symbols rest freq id
        (add_pair_times (Z.to_nat freq) map (pair_key a b) id)
  | _ => map
  end.

(** The symbols a word is split into, as many as the array [symbols] holds. *)
Definition stored_symbols (word : wstring) : list wstring :=
  firstn (Z.to_nat MAX_SYMBOLS) (wcstok_all word).

(** The loop over [i] of the counting pass, from entry [i] on. *)
Fixpoint count_from (i : Z) (vocabulary : Vocabulary) (map : BPE_HashMap)
  : BPE_HashMap :=
  match vocabulary with
  | [] => map
  | e :: rest =>
      count_from (i + 1) rest
        (count_symbols (stored_symbols (VocabEntry.token e)) (VocabEntry.freq e)
                       (to_uint32 i) map)
  end.

Definition count_pairs (vocabulary : Vocabulary) : BPE_HashMap :=
  count_from 0 vocabulary create_bpe_hashmap.

(** ** The merge-application pass *)

(** [if (!first) wcscat (new_token, L" "); wcscat (new_token, sym);] *)
Definition append_symbol (first : bool) (new_token sym : wstring)
  : option wstring :=
  match (if first then Some new_token
         else wcscat MAX_TOKEN_LEN new_token [space]) with
  | Some new_token' => wcscat MAX_TOKEN_LEN new_token' sym
  | None => None
  end.

(** The loop [while (sym != NULL)] over the symbols still to read, [sym] being
    the head of [symbols]. *)
Fixpoint merge_scan (best_pair : wstring) (symbols : list wstring)
  (first : bool) (new_token : wstring) : option wstring :=
  match symbols with
  | [] => Some new_token
  | sym :: after_sym =>
      match after_sym with
      | next :: after_next =>
          if wcs_eqb (pair_key sym next) best_pair
          then
            let merged := swprintf MAX_TOKEN_LEN (sym ++ next) in
            match append_symbol first new_token merged with
            | Some new_token' => merge_scan best_pair after_next false new_token'
            | None => None
            end
          else
            match append_symbol first new_token sym with
            | Some new_token' => merge_scan best_pair after_sym false new_token'
            | None => None
            end
      | [] =>
          match append_symbol first new_token sym with
          | Some new_token' => merge_scan best_pair after_sym false new_token'
          | None => None
          end
      end
  end.

Definition merge_entry (best_pair : wstring) (e : VocabEntry.t)
  : option VocabEntry.t :=
  match merge_scan best_pair (wcstok_all (VocabEntry.token e)) true [] with
  | Some updated => Some (VocabEntry.mk updated (VocabEntry.id e) (VocabEntry.freq e))
  | None => None
  end.

Fixpoint merge_pass (best_pair : wstring) (vocabulary : Vocabulary)
  : option Vocabulary :=
  match vocabulary with
  | [] => Some []
  | e :: rest =>
      match merge_entry best_pair e with
      | Some e' =>
          match merge_pass best_pair rest with
          | Some rest' => Some (e' :: rest')
          | None => None
          end
      | None => None
      end
  end.

(** ** The induction loop *)

(** The calls by which the loop prints a line: [printf] of the merge line
    and [wprintf] of the stop line. *)
Inductive log_record : Type :=
| InfoMerge (merge_number : Z) (best_pair : wstring) (best_count : Z)
| InfoStop.

(** The loop of [bpe_subword_merge] with [remaining] iterations to go, that is
    [num_merges - merge_iter]: the lines printed, and the final store unless a
    merge pass ran past [new_token]. *)
Fixpoint merge_loop (remaining : nat) (merge_iter : Z) (vocabulary : Vocabulary)
  : list log_record * option Vocabulary :=
  match remaining with
  | O => ([], Some vocabulary)
  | S remaining' =>
      let map := count_pairs vocabulary in
      let (best_pair, best_count) := find_most_frequent_pair map in
      if best_count <? 1 then ([InfoStop], Some vocabulary)
      else
        let line := InfoMerge (merge_iter + 1) best_pair best_count in
        match merge_pass best_pair vocabulary with
        | None => ([line], None)
        | Some vocabulary' =>
            let (log, final) := merge_loop remaining' (merge_iter + 1) vocabulary' in
            (line :: log, final)
        end
  end.

Definition bpe_subword_merge (num_merges : Z) (vocabulary : Vocabulary)
  : list log_record * option Vocabulary :=
  merge_loop (Z.to_nat num_merges) 0 vocabulary.

(** ** Notions the properties are stated with *)

(** The entries of a table in the order [find_most_frequent_pair] visits
    them: partitions by increasing index, each chain from its head. *)
Definition entries (map : BPE_HashMap) : list BPE_Pair.t :=
  flat_map map partitions.

Definition keys (map : BPE_HashMap) : list wstring :=
  List.map BPE_Pair.pair (entries map).

(** The count the table records for a key, [0] when no entry holds it. *)
Definition recorded_count (map : BPE_HashMap) (key : wstring) : Z :=
  match find (fun e => wcs_eqb (BPE_Pair.pair e) key) (entries map) with
  | Some e => BPE_Pair.count e
  | None => 0
  end.

(** The tables the program can build. *)
Inductive reachable : BPE_HashMap -> Prop :=
| reachable_create : reachable create_bpe_hashmap
| reachable_add_pair map pair id :
    reachable map -> reachable (add_pair map pair id).

(** A symbol, as [wcstok] hands it out. *)
Definition symbol (s : wstring) : Prop := s <> [] /\ ~ In space s.

(** The number of positions [j] at which the key of [(symbols[j], symbols[j+1])]
    is [key]. *)
Fixpoint adjacent_occurrences (key : wstring) (symbols : list wstring) : nat :=
  match symbols with
  | a :: (b :: _) as rest =>
      ((if wcs_eqb (pair_key a b) key then 1 else 0)
       + adjacent_occurrences key rest)%nat
  | _ => O
  end.

(** The sum over the entries, in store order, of occurrences times frequency. *)
Fixpoint weighted_occurrences (symbols_of : wstring -> list wstring)
  (key : wstring) (vocabulary : Vocabulary) : Z :=
  match vocabulary with
  | [] => 0
  | e :: rest =>
      Z.of_nat (adjacent_occurrences key (symbols_of (VocabEntry.token e)))
      * VocabEntry.freq e
      + weighted_occurrences symbols_of key rest
  end.

Definition symbol_count (e : VocabEntry.t) : nat :=
  length (wcstok_all (VocabEntry.token e)).

(** The number of times the loop of the merge pass fuses a pair. *)
Fixpoint merge_fires (best_pair : wstring) (symbols : list wstring) : nat :=
  match symbols with
  | sym :: (next :: after_next) as after_sym =>
      if wcs_eqb (pair_key sym next) best_pair
      then S (merge_fires best_pair after_next)
      else merge_fires best_pair after_sym
  | _ => O
  end.

(** The symbols the loop of the merge pass appends to [new_token]. *)
Fixpoint merge_symbols (best_pair : wstring) (symbols : list wstring)
  : list wstring :=
  match symbols with
  | sym :: (next :: after_next) as after_sym =>
      if wcs_eqb (pair_key sym next) best_pair
      then swprintf MAX_TOKEN_LEN (sym ++ next) :: merge_symbols best_pair after_next
      else sym :: merge_symbols best_pair after_sym
  | _ => symbols
  end.

(** Every symbol preceded by a separator. *)
Definition spaced (symbols : list wstring) : wstring :=
  flat_map (fun s => space :: s) symbols.

(** The surface form of a sequence of symbols. *)
Definition join (symbols : list wstring) : wstring :=
  match symbols with
  | [] => []
  | s :: rest => s ++ spaced rest
  end.

(** Following the specification (4.5): scan left to right; whenever two
    consecutive un-consumed symbols equal (A, B), emit the fused symbol AB and
    advance past both; otherwise emit the current symbol unchanged and advance
    by one. *)
Fixpoint spec_merge (A B : wstring) (symbols : list wstring) : list wstring :=
  match symbols with
  | x :: (y :: after_y) as after_x =>
      if wcs_eqb x A && wcs_eqb y B
      then (A ++ B) :: spec_merge A B after_y
      else x :: spec_merge A B after_x
  | _ => symbols
  end.

Definition is_merge (line : log_record) : bool :=
  match line with InfoMerge _ _ _ => true | InfoStop => false end.

(** The number of merge iterations a run has logged. *)
Definition merges (log : list log_record) : nat :=
  length (filter is_merge log).

(** ** Stores used as examples *)

(** The store of the end-to-end scenario of the specification. *)
Definition low_vocab : Vocabulary :=
  [ VocabEntry.mk (L "l o w") 0 5;
    VocabEntry.mk (L "l o w e r") 1 2;
    VocabEntry.mk (L "n e w e s t") 2 6;
    VocabEntry.mk (L "w i d e s t") 3 3 ].

(** A word of 258 symbols: 256 times [a], then [b] and [c]. *)
Definition long_word : wstring :=
  concat (repeat (L "a ") 256) ++ L "b c".

Definition long_vocab : Vocabulary := [VocabEntry.mk long_word 0 1].

(** The [i]-th of the four-letter words over [a]..[z]. *)
Definition word_of (i : Z) : wstring :=
  [97 + i mod 26; 97 + (i / 26) mod 26; 97 + (i / 26 / 26) mod 26;
   97 + (i / 26 / 26 / 26) mod 26].

(** A store that holds [MAX_VOCAB_SIZE] distinct words, each seen once. *)
Definition full_vocab : Vocabulary :=
  List.map (fun i => VocabEntry.mk (word_of i) i 1)
           (indices_from (Z.to_nat MAX_VOCAB_SIZE) 0).

(** The count a chain records for a key. *)
Definition chain_count (key : wstring) (chain : list BPE_Pair.t) : Z :=
  match find (fun e => wcs_eqb (BPE_Pair.pair e) key) chain with
  | Some e => BPE_Pair.count e
  | None => 0
  end.

(** What [add_pair] maintains: an entry is in the partition of its key with a
    count of at least one, and no chain holds a key twice. *)
Definition well_formed (map : BPE_HashMap) : Prop :=
  forall i,
    (forall e, In e (map i) ->
               hash (BPE_Pair.pair e) = i /\ 1 <= BPE_Pair.count e)
    /\ NoDup (List.map BPE_Pair.pair (map i)).

(** The contents of [new_token] once the symbols [emitted] are appended. *)
Fixpoint appended (first : bool) (new_token : wstring) (emitted : list wstring)
  : wstring :=
  match emitted with
  | [] => new_token
  | s :: rest =>
      appended false ((if first then new_token else new_token ++ [space]) ++ s)
               rest
  end.

(** A surface form that the array [new_token] can hold. *)
Definition fits (e : VocabEntry.t) : Prop :=
  Z.of_nat (length (VocabEntry.token e)) < MAX_TOKEN_LEN.

(** What the merge pass for [best_pair] keeps of an entry [e] in its rewritten
    entry [e']: the id, the frequency, and as many symbols as [e] has less one
    for each time the merge fires in [e]; the symbols are those of [e] when
    the pair does not occur in [e]. *)
Definition conserved (best_pair : wstring) (e e' : VocabEntry.t) : Prop :=
  VocabEntry.id e' = VocabEntry.id e /\
  VocabEntry.freq e' = VocabEntry.freq e /\
  (symbol_count e' + merge_fires best_pair (wcstok_all (VocabEntry.token e))
   = symbol_count e)%nat /\
  (adjacent_occurrences best_pair (wcstok_all (VocabEntry.token e)) = 0%nat ->
   wcstok_all (VocabEntry.token e') = wcstok_all (VocabEntry.token e)).

(** ** Further notions: the hash, the tags, sequences of calls *)

(** The hash before any wrap-around: [33 * h + c] at each character, from
    5381. *)
Definition djb2 (pair : wstring) : Z :=
  fold_left (fun h c => 33 * h + c) pair 5381.

(** The tag the table records for a key. *)
Definition recorded_id (map : BPE_HashMap) (key : wstring) : option Z :=
  option_map BPE_Pair.id
    (find (fun e => wcs_eqb (BPE_Pair.pair e) key) (entries map)).

(** A sequence of calls [add_pair (map, pair, id)]. *)
Definition add_pairs (calls : list (wstring * Z)) (map : BPE_HashMap)
  : BPE_HashMap :=
  fold_left (fun m call => add_pair m (fst call) (snd call)) calls map.

(** The number of calls made with a key. *)
Definition calls_with (key : wstring) (calls : list (wstring * Z)) : Z :=
  Z.of_nat (length (filter (fun call => wcs_eqb (fst call) key) calls)).

(** [equal_pair (token1, token2, pair)], non-zero as [true]. *)
Definition equal_pair (token1 token2 pair : wstring) : bool :=
  wcs_eqb (swprintf MAX_PAIR_LEN (token1 ++ [space] ++ token2)) pair.

(** ** Further notions: the store *)

(** The frequency the store records for a surface form, [0] when no entry
    holds it. *)
Definition freq_of (vocabulary : Vocabulary) (token : wstring) : Z :=
  match find (fun e => wcs_eqb (VocabEntry.token e) token) vocabulary with
  | Some e => VocabEntry.freq e
  | None => 0
  end.

(** The number of times a token occurs in a list of tokens. *)
Definition occurrences (token : wstring) (tokens : list wstring) : Z :=
  Z.of_nat (length (filter (fun t => wcs_eqb t token) tokens)).

(** What [add_to_vocabulary] maintains: no surface form is held twice, the id
    of an entry is its position, every frequency is at least one and the
    store holds at most [MAX_VOCAB_SIZE] entries. *)
Definition store_ok (vocabulary : Vocabulary) : Prop :=
  NoDup (List.map VocabEntry.token vocabulary) /\
  List.map VocabEntry.id vocabulary = indices_from (length vocabulary) 0 /\
  Forall (fun e => 1 <= VocabEntry.freq e) vocabulary /\
  vocab_size vocabulary <= MAX_VOCAB_SIZE.

(** ** Further notions: subwords *)

(** The loop over [j] of [convert_vocab_to_subwords]: every character of the
    word, with a space after each but the last. *)
Fixpoint insert_spaces (word : wstring) : wstring :=
  match word with
  | [] => []
  | c :: rest =>
      match rest with
      | [] => [c]
      | _ :: _ => c :: space :: insert_spaces rest
      end
  end.

(** One iteration of the loop over [i]: [new_str] has room for [len * 2] wide
    characters and receives the spaced word and the terminating null. *)
Definition convert_entry (e : VocabEntry.t) : option VocabEntry.t :=
  let word := VocabEntry.token e in
  let len := Z.of_nat (length word) in
  let new_size := len * 2 in
  let new_str := insert_spaces word in
  if Z.of_nat (length new_str) <? new_size
  then Some (VocabEntry.mk new_str (VocabEntry.id e) (VocabEntry.freq e))
  else None.

Fixpoint convert_vocab_to_subwords (vocabulary : Vocabulary)
  : option Vocabulary :=
  match vocabulary with
  | [] => Some []
  | e :: rest =>
      match convert_entry e with
      | Some e' =>
          match convert_vocab_to_subwords rest with
          | Some rest' => Some (e' :: rest')
          | None => None
          end
      | None => None
      end
  end.

(** The characters of a surface form without its separators. *)
Definition spelling (e : VocabEntry.t) : wstring :=
  concat (wcstok_all (VocabEntry.token e)).

(** A surface form with one separator between symbols and none at the ends. *)
Definition normal (s : wstring) : Prop := join (wcstok_all s) = s.

(** The number of symbols of a store. *)
Definition total_symbols (vocabulary : Vocabulary) : nat :=
  fold_right (fun e n => (symbol_count e + n)%nat) O vocabulary.

(** What [convert_vocab_to_subwords] makes of an entry [e]. *)
Definition converted (e e' : VocabEntry.t) : Prop :=
  VocabEntry.id e' = VocabEntry.id e /\
  VocabEntry.freq e' = VocabEntry.freq e /\
  wcstok_all (VocabEntry.token e')
  = List.map (fun c => [c])
      (filter (fun c => negb (c =? space)) (VocabEntry.token e)) /\
  Z.of_nat (length (VocabEntry.token e'))
  = 2 * Z.of_nat (length (VocabEntry.token e)) - 1 /\
  (~ In space (VocabEntry.token e) ->
   spelling e' = VocabEntry.token e /\
   symbol_count e' = length (VocabEntry.token e)).

(** What the merge passes keep of an entry. *)
Definition same_word (e e' : VocabEntry.t) : Prop :=
  VocabEntry.id e' = VocabEntry.id e /\
  VocabEntry.freq e' = VocabEntry.freq e /\
  spelling e' = spelling e.

(** ** Further notions: the tokenizer *)

(** The delimiters of [tokenize], [L" .,!?;:()\n"]. *)
Definition delims : wstring := L " .,!?;:()" ++ [10].

Definition is_delim (delimiters : wstring) (c : wchar_t) : bool :=
  existsb (Z.eqb c) delimiters.

(** The successive results of [wcstok] with a set of delimiters, up to the
    first [NULL]; [cur] is the token being read. *)
Fixpoint wcstok_delims_from (delimiters cur s : wstring) : list wstring :=
  match s with
  | [] => match cur with [] => [] | _ :: _ => [cur] end
  | c :: s' =>
      if is_delim delimiters c
      then match cur with
           | [] => wcstok_delims_from delimiters [] s'
           | _ :: _ => cur :: wcstok_delims_from delimiters [] s'
           end
      else wcstok_delims_from delimiters (cur ++ [c]) s'
  end.

Definition wcstok_delims (delimiters s : wstring) : list wstring :=
  wcstok_delims_from delimiters [] s.

(** The wide string an array holds: the characters before the first null. *)
Fixpoint c_string (s : wstring) : wstring :=
  match s with
  | [] => []
  | c :: s' => if c =? 0 then [] else c :: c_string s'
  end.

Section Tokenizer.

(** The function [towlower] of the C library, which depends on the locale. *)
Variable towlower : wchar_t -> wchar_t.

(** [to_lowercase (str)]: the string left in the array. *)
Definition to_lowercase (str : wstring) : wstring :=
  c_string (List.map towlower str).

(** [tokenize], from the wide text [mbstowcs] gives: the tokens stored in
    [tokens], [token_count] of them, and the store. *)
Definition tokenize_text (wtext : wstring) (vocabulary : Vocabulary)
  : list wstring * Vocabulary :=
  let words :=
    List.map to_lowercase
             (firstn (Z.to_nat MAX_TOKENS) (wcstok_delims delims wtext)) in
  (List.map (firstn (Z.to_nat (MAX_TOKEN_LEN - 1))) words,
   fold_left add_to_vocabulary words vocabulary).

End Tokenizer.

(** * Properties *)

Arguments swprintf : simpl never.
Arguments partitions : simpl never.

(** ** Wide strings *)

Lemma wcs_eqb_eq (a b : wstring) : wcs_eqb a b = true <-> a = b.
Proof.
  revert b; induction a as [|x a IH]; intros [|y b]; simpl;
    try (split; [discriminate | congruence]).
  - tauto.
  - rewrite andb_true_iff, Z.eqb_eq, IH. split.
    + intros [-> ->]; reflexivity.
    + intros H; injection H; auto.
Qed.

Lemma wcs_eqb_refl (a : wstring) : wcs_eqb a a = true.
Proof. apply wcs_eqb_eq; reflexivity. Qed.

Lemma wcs_eqb_neq (a b : wstring) : wcs_eqb a b = false <-> a <> b.
Proof.
  rewrite <- wcs_eqb_eq. destruct (wcs_eqb a b); split; congruence.
Qed.

Lemma swprintf_fits (n : Z) (s : wstring) :
  Z.of_nat (length s) < n -> swprintf n s = s.
Proof. intros H. unfold swprintf. apply firstn_all2. lia. Qed.

Lemma swprintf_length (n : Z) (s : wstring) :
  0 < n -> Z.of_nat (length (swprintf n s)) < n.
Proof.
  intros H. unfold swprintf.
  pose proof (firstn_le_length (Z.to_nat (n - 1)) s). lia.
Qed.

Lemma swprintf_shorter (n : Z) (s : wstring) :
  (length (swprintf n s) <= length s)%nat.
Proof. unfold swprintf. rewrite length_firstn. lia. Qed.

Lemma swprintf_In (n : Z) (s : wstring) (c : wchar_t) :
  In c (swprintf n s) -> In c s.
Proof.
  unfold swprintf. intros H.
  rewrite <- (firstn_skipn (Z.to_nat (n - 1)) s). apply in_or_app; auto.
Qed.

Lemma swprintf_nonempty (n : Z) (s : wstring) :
  1 < n -> s <> [] -> swprintf n s <> [].
Proof.
  intros Hn Hs. unfold swprintf.
  destruct s as [|c s]; [congruence|].
  destruct (Z.to_nat (n - 1)) eqn:E; [lia|]. simpl. discriminate.
Qed.

(** The keys [add_pair] receives fit the field [pair] of an entry. *)
Lemma pair_key_length (a b : wstring) :
  Z.of_nat (length (pair_key a b)) < MAX_PAIR_LEN.
Proof. apply swprintf_length. reflexivity. Qed.

(** ** Splitting into symbols *)

Lemma wcstok_from_app (cur s rest : wstring) :
  ~ In space s -> wcstok_from cur (s ++ rest) = wcstok_from (cur ++ s) rest.
Proof.
  revert cur; induction s as [|c s IH]; intros cur Hs; simpl.
  - rewrite app_nil_r; reflexivity.
  - destruct (c =? space) eqn:E.
    + apply Z.eqb_eq in E. exfalso; apply Hs; left; auto.
    + rewrite IH by (intros H; apply Hs; right; exact H).
      rewrite <- app_assoc; reflexivity.
Qed.

Lemma wcstok_from_symbols (cur s : wstring) :
  ~ In space cur -> Forall symbol (wcstok_from cur s).
Proof.
  revert cur; induction s as [|c s IH]; intros cur Hcur; simpl.
  - destruct cur; constructor; [split; [discriminate | exact Hcur] | constructor].
  - destruct (c =? space) eqn:E.
    + destruct cur.
      * apply IH; auto.
      * constructor; [split; [discriminate | exact Hcur] | apply IH; auto].
    + apply IH. intros H. apply in_app_or in H. destruct H as [H|[H|[]]].
      * auto.
      * apply Z.eqb_neq in E. congruence.
Qed.

Lemma wcstok_all_symbols (s : wstring) : Forall symbol (wcstok_all s).
Proof. apply wcstok_from_symbols. intros []. Qed.

Lemma wcstok_from_spaced (cur : wstring) (symbols : list wstring) :
  symbol cur ->
  wcstok_from cur (spaced symbols) = cur :: wcstok_from [] (spaced symbols).
Proof.
  intros [Hne _]. destruct symbols as [|s rest]; simpl.
  - destruct cur; congruence.
  - destruct cur; [congruence | reflexivity].
Qed.

Lemma wcstok_spaced (symbols : list wstring) :
  Forall symbol symbols -> wcstok_from [] (spaced symbols) = symbols.
Proof.
  induction 1 as [|s rest Hs _ IH]; simpl; [reflexivity|].
  rewrite wcstok_from_app by apply Hs. simpl.
  rewrite wcstok_from_spaced by exact Hs. rewrite IH; reflexivity.
Qed.

Lemma wcstok_join (symbols : list wstring) :
  Forall symbol symbols -> wcstok_all (join symbols) = symbols.
Proof.
  intros H. destruct H as [|s rest Hs Hrest]; [reflexivity|].
  unfold wcstok_all, join. rewrite wcstok_from_app by apply Hs. simpl.
  rewrite wcstok_from_spaced by exact Hs.
  rewrite wcstok_spaced by exact Hrest. reflexivity.
Qed.

Lemma spaced_cons (s : wstring) (symbols : list wstring) :
  spaced (s :: symbols) = space :: s ++ spaced symbols.
Proof. reflexivity. Qed.

Lemma length_spaced_wcstok (cur s : wstring) :
  (length (spaced (wcstok_from cur s)) <= 1 + length cur + length s)%nat.
Proof.
  revert cur; induction s as [|c s IH]; intros cur; simpl wcstok_from.
  - destruct cur; simpl; [lia|]. rewrite app_nil_r. simpl. lia.
  - destruct (c =? space).
    + destruct cur as [|d cur].
      * specialize (IH []). simpl in *. lia.
      * rewrite spaced_cons. specialize (IH []). simpl in *.
        rewrite length_app. lia.
    + specialize (IH (cur ++ [c])). rewrite length_app in IH. simpl in *. lia.
Qed.

Lemma length_join_wcstok (s : wstring) :
  (length (join (wcstok_all s)) <= length s)%nat.
Proof.
  pose proof (length_spaced_wcstok [] s) as H. fold (wcstok_all s) in H.
  destruct (wcstok_all s) as [|t rest]; simpl in *; [lia|].
  rewrite length_app in *. lia.
Qed.

(** ** The pair hash map *)

Lemma hash_range (pair : wstring) : 0 <= hash pair < HASH_SIZE.
Proof. unfold hash. apply Z.mod_pos_bound. reflexivity. Qed.

Lemma In_indices_from (n : nat) (s i : Z) :
  In i (indices_from n s) <-> s <= i < s + Z.of_nat n.
Proof.
  revert s; induction n as [|n IH]; intros s; simpl indices_from.
  - simpl. lia.
  - simpl In. rewrite IH. lia.
Qed.

Lemma NoDup_indices_from (n : nat) (s : Z) : NoDup (indices_from n s).
Proof.
  revert s; induction n as [|n IH]; intros s; simpl; constructor.
  - rewrite In_indices_from. lia.
  - apply IH.
Qed.

Lemma In_partitions (i : Z) : In i partitions <-> 0 <= i < HASH_SIZE.
Proof.
  unfold partitions. rewrite In_indices_from.
  rewrite Z2Nat.id by (unfold HASH_SIZE; lia). lia.
Qed.

Lemma NoDup_partitions : NoDup partitions.
Proof. apply NoDup_indices_from. Qed.

Lemma set_chain_same (map : BPE_HashMap) (index : Z) (chain : list BPE_Pair.t) :
  set_chain map index chain index = chain.
Proof. unfold set_chain. rewrite Z.eqb_refl; reflexivity. Qed.

Lemma set_chain_other (map : BPE_HashMap) (index i : Z) (chain : list BPE_Pair.t) :
  i <> index -> set_chain map index chain i = map i.
Proof.
  intros H. unfold set_chain. apply Z.eqb_neq in H. rewrite H; reflexivity.
Qed.

Lemma flat_map_set_chain_absent (map : BPE_HashMap) (index : Z)
  (chain : list BPE_Pair.t) (l : list Z) :
  ~ In index l -> flat_map (set_chain map index chain) l = flat_map map l.
Proof.
  induction l as [|i l IH]; intros H; simpl; [reflexivity|].
  rewrite set_chain_other by (intros ->; apply H; left; reflexivity).
  rewrite IH by (intros H'; apply H; right; exact H'). reflexivity.
Qed.

Lemma flat_map_set_chain (map : BPE_HashMap) (index : Z) (l : list Z) :
  NoDup l -> In index l ->
  exists before after,
    flat_map map l = before ++ map index ++ after /\
    forall chain,
      flat_map (set_chain map index chain) l = before ++ chain ++ after.
Proof.
  induction 1 as [|i l Hi Hl IH]; intros Hin; [destruct Hin|].
  destruct (Z.eq_dec i index) as [->|Hne].
  - exists [], (flat_map map l). split; [reflexivity|].
    intros chain. simpl. rewrite set_chain_same.
    rewrite flat_map_set_chain_absent by exact Hi. reflexivity.
  - destruct Hin as [Hin|Hin]; [congruence|].
    destruct (IH Hin) as (before & after & E & E').
    exists (map i ++ before), after. split.
    + simpl. rewrite E, app_assoc. reflexivity.
    + intros chain. simpl. rewrite set_chain_other by exact Hne.
      rewrite E', app_assoc. reflexivity.
Qed.

Lemma entries_set_chain (map : BPE_HashMap) (index : Z) :
  0 <= index < HASH_SIZE ->
  exists before after,
    entries map = before ++ map index ++ after /\
    forall chain,
      entries (set_chain map index chain) = before ++ chain ++ after.
Proof.
  intros H. apply flat_map_set_chain.
  - apply NoDup_partitions.
  - apply In_partitions; exact H.
Qed.

Lemma entries_create : entries create_bpe_hashmap = [].
Proof.
  unfold entries. induction partitions as [|i l IH]; simpl; auto.
Qed.

Lemma In_entries (map : BPE_HashMap) (e : BPE_Pair.t) :
  In e (entries map) <-> exists i, 0 <= i < HASH_SIZE /\ In e (map i).
Proof.
  unfold entries. rewrite in_flat_map. split.
  - intros (i & Hi & He). exists i. rewrite <- In_partitions. auto.
  - intros (i & Hi & He). exists i. rewrite In_partitions. auto.
Qed.

Lemma chain_increment_None (pair : wstring) (chain : list BPE_Pair.t) :
  chain_increment pair chain = None <->
  ~ In pair (List.map BPE_Pair.pair chain).
Proof.
  induction chain as [|entry next IH]; simpl.
  - tauto.
  - destruct (wcs_eqb (BPE_Pair.pair entry) pair) eqn:E.
    + apply wcs_eqb_eq in E. split; [discriminate | tauto].
    + apply wcs_eqb_neq in E.
      destruct (chain_increment pair next); simpl.
      * split; [discriminate|]. intros H. exfalso. apply H. right.
        destruct (in_dec (list_eq_dec Z.eq_dec) pair
                    (List.map BPE_Pair.pair next)) as [Hin|Hnin]; auto.
        apply IH in Hnin. discriminate.
      * split; [|reflexivity]. intros _ [H|H]; [congruence|].
        apply IH in H; auto.
Qed.

Lemma chain_increment_Some (pair : wstring) (chain chain' : list BPE_Pair.t) :
  chain_increment pair chain = Some chain' ->
  exists before e after,
    chain = before ++ e :: after /\
    BPE_Pair.pair e = pair /\
    ~ In pair (List.map BPE_Pair.pair before) /\
    chain' = before
               ++ BPE_Pair.mk pair (BPE_Pair.count e + 1) (BPE_Pair.id e)
               :: after.
Proof.
  revert chain'; induction chain as [|entry next IH]; intros chain'; simpl.
  - discriminate.
  - destruct (wcs_eqb (BPE_Pair.pair entry) pair) eqn:E.
    + apply wcs_eqb_eq in E. intros H; injection H as <-.
      exists [], entry, next. rewrite E. simpl. tauto.
    + apply wcs_eqb_neq in E.
      destruct (chain_increment pair next) as [next'|]; simpl; [|discriminate].
      intros H; injection H as <-.
      destruct (IH next' eq_refl) as (before & e & after & -> & He & Hb & ->).
      exists (entry :: before), e, after. simpl. repeat split; auto.
      intros [H|H]; auto.
Qed.

Lemma well_formed_create : well_formed create_bpe_hashmap.
Proof. intros i. split; [intros e []| constructor]. Qed.

Lemma well_formed_add_pair (map : BPE_HashMap) (pair : wstring) (id : Z) :
  well_formed map -> well_formed (add_pair map pair id).
Proof.
  intros Hwf i. unfold add_pair.
  destruct (Z.eq_dec i (hash pair)) as [->|Hne].
  - destruct (Hwf (hash pair)) as [Hin Hnd].
    destruct (chain_increment pair (map (hash pair))) as [chain'|] eqn:E;
      rewrite set_chain_same.
    + apply chain_increment_Some in E.
      destruct E as (before & e & after & Echain & He & _ & ->).
      rewrite Echain in Hin, Hnd. split.
      * intros x Hx. apply in_app_or in Hx. destruct Hx as [Hx|[<-|Hx]].
        -- apply Hin, in_or_app; auto.
        -- simpl. split; [reflexivity|].
           assert (1 <= BPE_Pair.count e)
             by (apply Hin, in_or_app; right; left; reflexivity).
           lia.
        -- apply Hin, in_or_app; right; right; exact Hx.
      * rewrite map_app in *. simpl in *. rewrite <- He at 1. exact Hnd.
    + apply chain_increment_None in E. split.
      * intros x [<-|Hx]; [simpl; split; [reflexivity | lia] | auto].
      * simpl. constructor; auto.
  - destruct (chain_increment pair (map (hash pair)));
      rewrite set_chain_other by exact Hne; apply Hwf.
Qed.

Lemma reachable_well_formed (map : BPE_HashMap) :
  reachable map -> well_formed map.
Proof.
  induction 1; [apply well_formed_create | apply well_formed_add_pair; auto].
Qed.

Lemma NoDup_keys_flat_map (map : BPE_HashMap) (l : list Z) :
  well_formed map -> NoDup l ->
  NoDup (List.map BPE_Pair.pair (flat_map map l)).
Proof.
  intros Hwf. induction 1 as [|i l Hi Hl IH]; simpl; [constructor|].
  rewrite map_app. apply NoDup_app; [apply Hwf | exact IH |].
  intros key Hkey Hkey'.
  apply in_map_iff in Hkey. destruct Hkey as (e & <- & He).
  apply in_map_iff in Hkey'. destruct Hkey' as (e' & Ee & He').
  apply in_flat_map in He'. destruct He' as (j & Hj & He').
  apply Hwf in He. apply Hwf in He'.
  assert (i = j) by (destruct He, He'; congruence). subst j. auto.
Qed.

Lemma well_formed_NoDup_keys (map : BPE_HashMap) :
  well_formed map -> NoDup (keys map).
Proof.
  intros H. apply NoDup_keys_flat_map; [exact H | apply NoDup_partitions].
Qed.

Lemma In_keys_bucket (map : BPE_HashMap) (key : wstring) :
  well_formed map ->
  In key (keys map) <-> In key (List.map BPE_Pair.pair (map (hash key))).
Proof.
  intros Hwf. unfold keys. rewrite !in_map_iff. split.
  - intros (e & <- & He). exists e. split; [reflexivity|].
    apply In_entries in He. destruct He as (i & _ & He).
    destruct (Hwf i) as [Hin _]. destruct (Hin e He) as [-> _]. exact He.
  - intros (e & <- & He). exists e. split; [reflexivity|].
    apply In_entries. exists (hash (BPE_Pair.pair e)).
    split; [apply hash_range | exact He].
Qed.

(** C7. In every table built by [add_pair] from the empty one, a key is held
    by at most one entry; [add_pair] with a key that is present replaces its
    entry, in place, by the same entry with the count incremented and adds no
    entry; with a key that is not present it inserts one entry with count 1
    and the given tag. *)
Theorem add_pair_keeps_keys_unique (map : BPE_HashMap) (pair : wstring) (id : Z) :
  reachable map ->
  NoDup (keys map) /\
  NoDup (keys (add_pair map pair id)) /\
  (In pair (keys map) ->
   exists before e after,
     entries map = before ++ e :: after /\
     BPE_Pair.pair e = pair /\
     entries (add_pair map pair id)
     = before ++ BPE_Pair.mk pair (BPE_Pair.count e + 1) (BPE_Pair.id e) :: after) /\
  (~ In pair (keys map) ->
   exists before after,
     entries map = before ++ after /\
     entries (add_pair map pair id) = before ++ BPE_Pair.mk pair 1 id :: after).
Proof.
  intros Hr. pose proof (reachable_well_formed map Hr) as Hwf.
  split; [apply well_formed_NoDup_keys; exact Hwf|].
  split; [apply well_formed_NoDup_keys, well_formed_add_pair; exact Hwf|].
  destruct (entries_set_chain map (hash pair) (hash_range pair))
    as (before & after & E & E').
  rewrite (In_keys_bucket map pair Hwf). unfold add_pair.
  destruct (chain_increment pair (map (hash pair))) as [chain'|] eqn:Ec.
  - pose proof Ec as Hsome. apply chain_increment_Some in Hsome.
    destruct Hsome as (b & e & a & Echain & He & Hb & ->).
    split.
    + intros _. exists (before ++ b), e, (a ++ after). repeat split.
      * rewrite E, Echain, <- !app_assoc. reflexivity.
      * exact He.
      * rewrite E', <- !app_assoc. reflexivity.
    + intros Hnot. exfalso. apply Hnot. rewrite Echain, map_app.
      apply in_or_app. right. left. exact He.
  - apply chain_increment_None in Ec. split; [tauto|].
    intros _. exists before, (map (hash pair) ++ after). split.
    + exact E.
    + rewrite E'. reflexivity.
Qed.

Lemma add_pair_keeps_keys_unique_witness :
  reachable (add_pair create_bpe_hashmap (L "e s") 2) /\
  NoDup (keys (add_pair (add_pair create_bpe_hashmap (L "e s") 2) (L "e s") 3)).
Proof.
  split.
  - apply reachable_add_pair, reachable_create.
  - apply (add_pair_keeps_keys_unique
             (add_pair create_bpe_hashmap (L "e s") 2) (L "e s") 3).
    apply reachable_add_pair, reachable_create.
Defined.

(** ** Best-pair selection *)

Lemma fold_left_chains (map : BPE_HashMap) (l : list Z) (best : wstring * Z) :
  fold_left (fun best i => fold_left better (map i) best) l best
  = fold_left better (flat_map map l) best.
Proof.
  revert best; induction l as [|i l IH]; intros best; simpl; [reflexivity|].
  rewrite fold_left_app. apply IH.
Qed.

Lemma find_most_frequent_pair_entries (map : BPE_HashMap) :
  find_most_frequent_pair map = fold_left better (entries map) ([], 0).
Proof.
  unfold find_most_frequent_pair, entries.
  exact (fold_left_chains map partitions ([], 0)).
Qed.

(** The scan keeps [best] unless an entry exceeds its count, and then ends on
    the first entry of greatest count. *)
Lemma fold_left_better (es : list BPE_Pair.t) (best : wstring * Z) :
  (Forall (fun x => BPE_Pair.count x <= snd best) es /\
   fold_left better es best = best)
  \/
  (exists before e after,
     es = before ++ e :: after /\
     fold_left better es best = (BPE_Pair.pair e, BPE_Pair.count e) /\
     snd best < BPE_Pair.count e /\
     Forall (fun x => BPE_Pair.count x < BPE_Pair.count e) before /\
     Forall (fun x => BPE_Pair.count x <= BPE_Pair.count e) after).
Proof.
  revert best; induction es as [|x es IH]; intros best.
  - left. split; [constructor | reflexivity].
  - simpl fold_left.
    destruct (BPE_Pair.count x >? snd best) eqn:E.
    + replace (better best x) with (BPE_Pair.pair x, BPE_Pair.count x)
        by (unfold better; rewrite E; reflexivity).
      apply Z.gtb_lt in E. right.
      destruct (IH (BPE_Pair.pair x, BPE_Pair.count x))
        as [[Hall Hfold] | (before & e & after & -> & Hfold & Hgt & Hb & Ha)].
      * exists [], x, es. simpl in Hall. repeat split; auto.
      * exists (x :: before), e, after. simpl in Hgt.
        repeat split; auto; try lia; try (constructor; auto; lia).
    + replace (better best x) with best
        by (unfold better; rewrite E; reflexivity).
      assert (BPE_Pair.count x <= snd best)
        by (destruct (Z.gtb_spec (BPE_Pair.count x) (snd best)); [discriminate | lia]).
      destruct (IH best)
        as [[Hall Hfold] | (before & e & after & -> & Hfold & Hgt & Hb & Ha)].
      * left. split; [constructor; auto | exact Hfold].
      * right. exists (x :: before), e, after.
        repeat split; auto. constructor; [lia | auto].
Qed.

Lemma reachable_counts_positive (map : BPE_HashMap) :
  reachable map -> Forall (fun e => 1 <= BPE_Pair.count e) (entries map).
Proof.
  intros Hr. apply Forall_forall. intros e He.
  apply In_entries in He. destruct He as (i & _ & He).
  apply (reachable_well_formed map Hr i). exact He.
Qed.

(** C4. On a table with no entry the selection returns the empty key with
    count 0. On a table in which some count is positive, as is every count of
    a non-empty table built by [add_pair], it returns the key and count of an
    entry no other entry exceeds, and among the entries of that count the one
    met first when the partitions are scanned by increasing index and each
    chain from its head. *)
Theorem find_most_frequent_pair_first_greatest (map : BPE_HashMap) :
  (entries map = [] -> find_most_frequent_pair map = ([], 0)) /\
  (Exists (fun e => 0 < BPE_Pair.count e) (entries map) ->
   exists before e after,
     entries map = before ++ e :: after /\
     find_most_frequent_pair map = (BPE_Pair.pair e, BPE_Pair.count e) /\
     Forall (fun x => BPE_Pair.count x < BPE_Pair.count e) before /\
     Forall (fun x => BPE_Pair.count x <= BPE_Pair.count e) after) /\
  (reachable map -> entries map <> [] ->
   Exists (fun e => 0 < BPE_Pair.count e) (entries map)).
Proof.
  rewrite find_most_frequent_pair_entries. split; [|split].
  - intros ->. reflexivity.
  - intros Hex.
    destruct (fold_left_better (entries map) ([], 0))
      as [[Hall _] | (before & e & after & E & Hfold & _ & Hb & Ha)].
    + exfalso. apply Exists_exists in Hex. destruct Hex as (e & He & Hpos).
      rewrite Forall_forall in Hall. specialize (Hall e He). simpl in Hall. lia.
    + exists before, e, after. auto.
  - intros Hr Hne. pose proof (reachable_counts_positive map Hr) as Hall.
    destruct (entries map) as [|e es]; [congruence|].
    apply Exists_cons_hd. inversion Hall; subst. lia.
Qed.

(** ** Counts recorded by the table *)

Lemma find_app_first {A : Type} (p : A -> bool) (l l' : list A) :
  find p (l ++ l') = match find p l with Some x => Some x | None => find p l' end.
Proof.
  induction l as [|x l IH]; simpl; [reflexivity|].
  destruct (p x); auto.
Qed.

Lemma find_none_keys (key : wstring) (chain : list BPE_Pair.t) :
  ~ In key (List.map BPE_Pair.pair chain) ->
  find (fun e => wcs_eqb (BPE_Pair.pair e) key) chain = None.
Proof.
  induction chain as [|e chain IH]; simpl; [reflexivity|].
  intros H. destruct (wcs_eqb (BPE_Pair.pair e) key) eqn:E.
  - apply wcs_eqb_eq in E. tauto.
  - apply IH. tauto.
Qed.

Lemma find_flat_map_bucket (map : BPE_HashMap) (key : wstring) (l : list Z) :
  well_formed map -> NoDup l ->
  find (fun e => wcs_eqb (BPE_Pair.pair e) key) (flat_map map l)
  = if in_dec Z.eq_dec (hash key) l
    then find (fun e => wcs_eqb (BPE_Pair.pair e) key) (map (hash key))
    else None.
Proof.
  intros Hwf. induction 1 as [|i l Hi Hl IH]; [reflexivity|].
  simpl flat_map. rewrite find_app_first, IH.
  destruct (Z.eq_dec i (hash key)) as [->|Hne].
  - destruct (in_dec Z.eq_dec (hash key) (hash key :: l)) as [_|Hn];
      [|exfalso; apply Hn; left; reflexivity].
    destruct (in_dec Z.eq_dec (hash key) l); [tauto|].
    destruct (find _ (map (hash key))); reflexivity.
  - rewrite find_none_keys.
    + destruct (in_dec Z.eq_dec (hash key) l) as [Hin|Hn];
        destruct (in_dec Z.eq_dec (hash key) (i :: l)) as [Hin'|Hn'];
        try reflexivity.
      * exfalso; apply Hn'; right; exact Hin.
      * destruct Hin' as [->|Hin']; [congruence | tauto].
    + intros Hin. apply in_map_iff in Hin. destruct Hin as (e & <- & He).
      apply (Hwf i) in He. destruct He; congruence.
Qed.

Lemma recorded_count_bucket (map : BPE_HashMap) (key : wstring) :
  well_formed map ->
  recorded_count map key = chain_count key (map (hash key)).
Proof.
  intros Hwf. unfold recorded_count, chain_count, entries.
  rewrite (find_flat_map_bucket map key partitions Hwf NoDup_partitions).
  destruct (in_dec Z.eq_dec (hash key) partitions) as [_|Hn]; [reflexivity|].
  exfalso. apply Hn, In_partitions, hash_range.
Qed.

Lemma chain_count_increment (pair key : wstring) (chain chain' : list BPE_Pair.t) :
  chain_increment pair chain = Some chain' ->
  chain_count key chain'
  = chain_count key chain + (if wcs_eqb pair key then 1 else 0).
Proof.
  unfold chain_count.
  revert chain'; induction chain as [|entry next IH]; intros chain'; simpl.
  - discriminate.
  - destruct (wcs_eqb (BPE_Pair.pair entry) pair) eqn:E.
    + apply wcs_eqb_eq in E. intros H; injection H as <-. simpl. rewrite E.
      destruct (wcs_eqb pair key); simpl; lia.
    + destruct (chain_increment pair next) as [next'|]; simpl; [|discriminate].
      intros H; injection H as <-. simpl.
      destruct (wcs_eqb (BPE_Pair.pair entry) key) eqn:E'.
      * apply wcs_eqb_eq in E'. subst key.
        rewrite wcs_eqb_neq in E.
        assert (wcs_eqb pair (BPE_Pair.pair entry) = false) as ->
            by (apply wcs_eqb_neq; congruence).
        lia.
      * apply IH. reflexivity.
Qed.

Lemma chain_count_absent (key : wstring) (chain : list BPE_Pair.t) :
  ~ In key (List.map BPE_Pair.pair chain) -> chain_count key chain = 0.
Proof.
  intros H. unfold chain_count. rewrite find_none_keys by exact H. reflexivity.
Qed.

Lemma recorded_count_add_pair (map : BPE_HashMap) (pair key : wstring) (id : Z) :
  well_formed map ->
  recorded_count (add_pair map pair id) key
  = recorded_count map key + (if wcs_eqb pair key then 1 else 0).
Proof.
  intros Hwf.
  rewrite (recorded_count_bucket _ key (well_formed_add_pair map pair id Hwf)).
  rewrite (recorded_count_bucket map key Hwf).
  unfold add_pair.
  destruct (Z.eq_dec (hash key) (hash pair)) as [Eh|Hne].
  - rewrite Eh.
    destruct (chain_increment pair (map (hash pair))) as [chain'|] eqn:Ec;
      rewrite set_chain_same.
    + apply chain_count_increment. exact Ec.
    + apply chain_increment_None in Ec.
      unfold chain_count at 1. simpl.
      destruct (wcs_eqb pair key) eqn:E.
      * apply wcs_eqb_eq in E. subst key.
        rewrite chain_count_absent by exact Ec. reflexivity.
      * fold (chain_count key (map (hash pair))). lia.
  - assert (wcs_eqb pair key = false) as ->
        by (apply wcs_eqb_neq; congruence).
    destruct (chain_increment pair (map (hash pair)));
      rewrite set_chain_other by exact Hne; lia.
Qed.

Lemma recorded_count_create (key : wstring) :
  recorded_count create_bpe_hashmap key = 0.
Proof. unfold recorded_count. rewrite entries_create. reflexivity. Qed.

(** ** The pair-counting pass *)

Lemma well_formed_add_pair_times (k : nat) (map : BPE_HashMap) (pair : wstring)
  (id : Z) :
  well_formed map -> well_formed (add_pair_times k map pair id).
Proof.
  revert map; induction k as [|k IH]; intros map Hwf; simpl; auto.
  apply IH, well_formed_add_pair, Hwf.
Qed.

Lemma recorded_count_add_pair_times (k : nat) (map : BPE_HashMap)
  (pair key : wstring) (id : Z) :
  well_formed map ->
  recorded_count (add_pair_times k map pair id) key
  = recorded_count map key + (if wcs_eqb pair key then Z.of_nat k else 0).
Proof.
  revert map; induction k as [|k IH]; intros map Hwf.
  - simpl. destruct (wcs_eqb pair key); lia.
  - simpl add_pair_times. rewrite IH by (apply well_formed_add_pair, Hwf).
    rewrite recorded_count_add_pair by exact Hwf.
    destruct (wcs_eqb pair key); lia.
Qed.

Lemma well_formed_count_symbols (symbols : list wstring) (freq id : Z)
  (map : BPE_HashMap) :
  well_formed map -> well_formed (count_symbols symbols freq id map).
Proof.
  revert map; induction symbols as [|a rest IH]; intros map Hwf; [exact Hwf|].
  destruct rest as [|b rest]; [exact Hwf|].
  change (well_formed
            (count_symbols (b :: rest) freq id
               (add_pair_times (Z.to_nat freq) map (pair_key a b) id))).
  apply IH, well_formed_add_pair_times, Hwf.
Qed.

Lemma recorded_count_count_symbols (symbols : list wstring) (freq id : Z)
  (map : BPE_HashMap) (key : wstring) :
  well_formed map ->
  recorded_count (count_symbols symbols freq id map) key
  = recorded_count map key
    + Z.of_nat (adjacent_occurrences key symbols) * Z.of_nat (Z.to_nat freq).
Proof.
  revert map; induction symbols as [|a rest IH]; intros map Hwf;
    [simpl; lia|].
  destruct rest as [|b rest]; [simpl; lia|].
  change (count_symbols (a :: b :: rest) freq id map)
    with (count_symbols (b :: rest) freq id
            (add_pair_times (Z.to_nat freq) map (pair_key a b) id)).
  change (adjacent_occurrences key (a :: b :: rest))
    with ((if wcs_eqb (pair_key a b) key then 1 else 0)
          + adjacent_occurrences key (b :: rest))%nat.
  rewrite IH by (apply well_formed_add_pair_times, Hwf).
  rewrite recorded_count_add_pair_times by exact Hwf.
  destruct (wcs_eqb (pair_key a b) key); lia.
Qed.

Lemma well_formed_count_from (vocabulary : Vocabulary) (i : Z)
  (map : BPE_HashMap) :
  well_formed map -> well_formed (count_from i vocabulary map).
Proof.
  revert i map; induction vocabulary as [|e rest IH]; intros i map Hwf;
    simpl; auto.
  apply IH, well_formed_count_symbols, Hwf.
Qed.

Lemma recorded_count_count_from (vocabulary : Vocabulary) (i : Z)
  (map : BPE_HashMap) (key : wstring) :
  well_formed map ->
  Forall (fun e => 0 <= VocabEntry.freq e) vocabulary ->
  recorded_count (count_from i vocabulary map) key
  = recorded_count map key + weighted_occurrences stored_symbols key vocabulary.
Proof.
  intros Hwf Hfreq. revert i map Hwf.
  induction Hfreq as [|e rest He _ IH]; intros i map Hwf; simpl; [lia|].
  rewrite IH by (apply well_formed_count_symbols, Hwf).
  rewrite recorded_count_count_symbols by exact Hwf.
  rewrite Z2Nat.id by exact He. lia.
Qed.

Lemma recorded_count_count_pairs (vocabulary : Vocabulary) (key : wstring) :
  Forall (fun e => 0 <= VocabEntry.freq e) vocabulary ->
  recorded_count (count_pairs vocabulary) key
  = weighted_occurrences stored_symbols key vocabulary.
Proof.
  intros H. unfold count_pairs.
  rewrite recorded_count_count_from by (auto using well_formed_create).
  rewrite recorded_count_create. lia.
Qed.

Lemma reachable_add_pair_times (k : nat) (map : BPE_HashMap) (pair : wstring)
  (id : Z) :
  reachable map -> reachable (add_pair_times k map pair id).
Proof.
  revert map; induction k as [|k IH]; intros map Hr; simpl; auto.
  apply IH, reachable_add_pair, Hr.
Qed.

Lemma reachable_count_symbols (symbols : list wstring) (freq id : Z)
  (map : BPE_HashMap) :
  reachable map -> reachable (count_symbols symbols freq id map).
Proof.
  revert map; induction symbols as [|a rest IH]; intros map Hr; [exact Hr|].
  destruct rest as [|b rest]; [exact Hr|].
  change (reachable
            (count_symbols (b :: rest) freq id
               (add_pair_times (Z.to_nat freq) map (pair_key a b) id))).
  apply IH, reachable_add_pair_times, Hr.
Qed.

Lemma reachable_count_pairs (vocabulary : Vocabulary) :
  reachable (count_pairs vocabulary).
Proof.
  unfold count_pairs. generalize 0 at 1. generalize reachable_create.
  generalize create_bpe_hashmap.
  induction vocabulary as [|e rest IH]; intros map Hr i; simpl; auto.
  apply IH, reachable_count_symbols, Hr.
Qed.







Lemma MAX_SYMBOLS_nat : Z.to_nat MAX_SYMBOLS = 256%nat.
Proof. vm_compute. reflexivity. Qed.

(** C10. Whatever the number of symbols of the surface forms, the count the
    table records for a key after the counting pass is the weighted sum of
    its adjacent occurrences among the first 256 symbols of each entry: the
    pairs that involve a symbol at position 256 or beyond are not counted.
    The iteration prints one line, the merge line or the stop line, and
    nothing about the symbols it left out. *)
Theorem count_pairs_first_256_symbols (vocabulary : Vocabulary) (key : wstring)
  (merge_iter : Z) :
  Forall (fun e => 0 <= VocabEntry.freq e) vocabulary ->
  recorded_count (count_pairs vocabulary) key
  = weighted_occurrences (fun word => firstn 256 (wcstok_all word)) key vocabulary
  /\
  (fst (merge_loop 1 merge_iter vocabulary) = [InfoStop] \/
   exists best_pair best_count,
     fst (merge_loop 1 merge_iter vocabulary)
     = [InfoMerge (merge_iter + 1) best_pair best_count]).
Proof.
  intros Hfreq. split.
  - rewrite recorded_count_count_pairs by exact Hfreq.
    unfold stored_symbols. rewrite MAX_SYMBOLS_nat. reflexivity.
  - cbn [merge_loop].
    destruct (find_most_frequent_pair (count_pairs vocabulary))
      as [best_pair best_count].
    destruct (best_count <? 1); [left; reflexivity|].
    right. exists best_pair, best_count.
    destruct (merge_pass best_pair vocabulary); reflexivity.
Qed.

Lemma count_pairs_first_256_symbols_witness :
  Forall (fun e => 0 <= VocabEntry.freq e) long_vocab /\
  recorded_count (count_pairs long_vocab) (L "a a")
  = weighted_occurrences (fun word => firstn 256 (wcstok_all word))
      (L "a a") long_vocab.
Proof.
  assert (Hfreq : Forall (fun e => 0 <= VocabEntry.freq e) long_vocab)
    by (repeat constructor; simpl; lia).
  split; [exact Hfreq|].
  apply (count_pairs_first_256_symbols long_vocab (L "a a") 0 Hfreq).
Defined.

Example long_word_counts :
  length (wcstok_all long_word) = 258%nat /\
  recorded_count (count_pairs long_vocab) (L "a a") = 255 /\
  recorded_count (count_pairs long_vocab) (L "a b") = 0 /\
  recorded_count (count_pairs long_vocab) (L "b c") = 0.
Proof. vm_compute. repeat split. Qed.

(** ** The merge-application pass *)

Lemma pair_induction {A : Type} (P : list A -> Prop) :
  P [] -> (forall x, P [x]) ->
  (forall x y l, P l -> P (y :: l) -> P (x :: y :: l)) ->
  forall l, P l.
Proof.
  intros Hnil Hone Hstep l.
  assert (H : P l /\ forall x, P (x :: l)); [|apply H].
  induction l as [|y l [IH1 IH2]]; split; auto.
Qed.

Lemma append_symbol_spec (first : bool) (new_token sym : wstring) :
  append_symbol first new_token sym
  = let out := (if first then new_token else new_token ++ [space]) ++ sym in
    if Z.of_nat (length out) <? MAX_TOKEN_LEN then Some out else None.
Proof.
  unfold append_symbol, wcscat. destruct first; cbv zeta.
  - rewrite length_app, Nat2Z.inj_add. reflexivity.
  - rewrite !length_app, !Nat2Z.inj_add. simpl length.
    destruct (Z.of_nat (length new_token) + Z.of_nat 1 <? MAX_TOKEN_LEN) eqn:E.
    + rewrite length_app, Nat2Z.inj_add. reflexivity.
    + apply Z.ltb_ge in E.
      destruct (Z.ltb_spec (Z.of_nat (length new_token) + Z.of_nat 1
                            + Z.of_nat (length sym)) MAX_TOKEN_LEN);
        [lia | reflexivity].
Qed.

Lemma length_appended (first : bool) (new_token : wstring)
  (emitted : list wstring) :
  (length new_token <= length (appended first new_token emitted))%nat.
Proof.
  revert first new_token; induction emitted as [|s rest IH];
    intros first new_token; simpl; [lia|].
  specialize (IH false ((if first then new_token else new_token ++ [space]) ++ s)).
  destruct first; rewrite !length_app in IH; lia.
Qed.

Lemma appended_false (new_token : wstring) (emitted : list wstring) :
  appended false new_token emitted = new_token ++ spaced emitted.
Proof.
  revert new_token; induction emitted as [|s rest IH]; intros new_token; simpl.
  - rewrite app_nil_r; reflexivity.
  - rewrite IH, <- !app_assoc. reflexivity.
Qed.

Lemma appended_true (emitted : list wstring) :
  appended true [] emitted = join emitted.
Proof.
  destruct emitted as [|s rest]; simpl; [reflexivity|].
  apply appended_false.
Qed.

Lemma merge_scan_spec (best_pair : wstring) (symbols : list wstring) :
  forall (first : bool) (new_token : wstring),
    Z.of_nat (length new_token) < MAX_TOKEN_LEN ->
    merge_scan best_pair symbols first new_token
    = let out := appended first new_token (merge_symbols best_pair symbols) in
      if Z.of_nat (length out) <? MAX_TOKEN_LEN then Some out else None.
Proof.
  assert (Hstep : forall first new_token s rest k,
             (forall nt, Z.of_nat (length nt) < MAX_TOKEN_LEN ->
                         k nt
                         = if Z.of_nat (length (appended false nt rest))
                              <? MAX_TOKEN_LEN
                           then Some (appended false nt rest) else None) ->
             match append_symbol first new_token s with
             | Some nt => k nt
             | None => None
             end
             = if Z.of_nat (length (appended first new_token (s :: rest)))
                  <? MAX_TOKEN_LEN
               then Some (appended first new_token (s :: rest)) else None).
  { intros first new_token s rest k Hk. rewrite append_symbol_spec. cbv zeta.
    simpl appended.
    set (out := (if first then new_token else new_token ++ [space]) ++ s).
    destruct (Z.ltb_spec (Z.of_nat (length out)) MAX_TOKEN_LEN) as [Hlt|Hge].
    - apply Hk. exact Hlt.
    - pose proof (length_appended false out rest).
      destruct (Z.ltb_spec (Z.of_nat (length (appended false out rest)))
                           MAX_TOKEN_LEN); [lia | reflexivity]. }
  induction symbols as [| sym | sym next after IH1 IH2] using pair_induction;
    intros first new_token Hlen; cbv zeta.
  - simpl. apply Z.ltb_lt in Hlen. rewrite Hlen. reflexivity.
  - simpl merge_scan. simpl merge_symbols.
    apply (Hstep first new_token sym [] (fun nt => Some nt)).
    intros nt Hnt. simpl. apply Z.ltb_lt in Hnt. rewrite Hnt. reflexivity.
  - change (merge_scan best_pair (sym :: next :: after) first new_token)
      with (if wcs_eqb (pair_key sym next) best_pair
            then match append_symbol first new_token
                         (swprintf MAX_TOKEN_LEN (sym ++ next)) with
                 | Some nt => merge_scan best_pair after false nt
                 | None => None
                 end
            else match append_symbol first new_token sym with
                 | Some nt => merge_scan best_pair (next :: after) false nt
                 | None => None
                 end).
    change (merge_symbols best_pair (sym :: next :: after))
      with (if wcs_eqb (pair_key sym next) best_pair
            then swprintf MAX_TOKEN_LEN (sym ++ next)
                   :: merge_symbols best_pair after
            else sym :: merge_symbols best_pair (next :: after)).
    destruct (wcs_eqb (pair_key sym next) best_pair).
    + apply (Hstep first new_token _ _
               (fun nt => merge_scan best_pair after false nt)).
      intros nt Hnt. apply IH1. exact Hnt.
    + apply (Hstep first new_token _ _
               (fun nt => merge_scan best_pair (next :: after) false nt)).
      intros nt Hnt. apply IH2. exact Hnt.
Qed.

Lemma merge_entry_spec (best_pair : wstring) (e : VocabEntry.t) :
  merge_entry best_pair e
  = let out := join (merge_symbols best_pair (wcstok_all (VocabEntry.token e))) in
    if Z.of_nat (length out) <? MAX_TOKEN_LEN
    then Some (VocabEntry.mk out (VocabEntry.id e) (VocabEntry.freq e))
    else None.
Proof.
  unfold merge_entry. rewrite merge_scan_spec by (simpl; reflexivity).
  cbv zeta. rewrite appended_true.
  destruct (Z.of_nat (length (join _)) <? MAX_TOKEN_LEN); reflexivity.
Qed.

Lemma symbol_swprintf_merged (sym next : wstring) :
  symbol sym -> symbol next -> symbol (swprintf MAX_TOKEN_LEN (sym ++ next)).
Proof.
  intros [Hne Hsp] [_ Hsp']. split.
  - apply swprintf_nonempty; [reflexivity|]. destruct sym; [congruence | discriminate].
  - intros H. apply swprintf_In in H. apply in_app_or in H. tauto.
Qed.

Lemma merge_symbols_symbols (best_pair : wstring) (symbols : list wstring) :
  Forall symbol symbols -> Forall symbol (merge_symbols best_pair symbols).
Proof.
  induction symbols as [| sym | sym next after IH1 IH2] using pair_induction;
    intros H; try exact H.
  change (merge_symbols best_pair (sym :: next :: after))
    with (if wcs_eqb (pair_key sym next) best_pair
          then swprintf MAX_TOKEN_LEN (sym ++ next)
                 :: merge_symbols best_pair after
          else sym :: merge_symbols best_pair (next :: after)).
  inversion H as [|? ? Hsym H']; subst. inversion H' as [|? ? Hnext H'']; subst.
  destruct (wcs_eqb (pair_key sym next) best_pair); constructor; auto.
  apply symbol_swprintf_merged; auto.
Qed.

Lemma merge_symbols_length (best_pair : wstring) (symbols : list wstring) :
  (length (merge_symbols best_pair symbols) + merge_fires best_pair symbols
   = length symbols)%nat.
Proof.
  induction symbols as [| sym | sym next after IH1 IH2] using pair_induction;
    try reflexivity.
  change (merge_symbols best_pair (sym :: next :: after))
    with (if wcs_eqb (pair_key sym next) best_pair
          then swprintf MAX_TOKEN_LEN (sym ++ next)
                 :: merge_symbols best_pair after
          else sym :: merge_symbols best_pair (next :: after)).
  change (merge_fires best_pair (sym :: next :: after))
    with (if wcs_eqb (pair_key sym next) best_pair
          then S (merge_fires best_pair after)
          else merge_fires best_pair (next :: after)).
  destruct (wcs_eqb (pair_key sym next) best_pair); simpl length in *; lia.
Qed.

Lemma merge_symbols_width (best_pair : wstring) (symbols : list wstring) :
  (length (spaced (merge_symbols best_pair symbols)) <= length (spaced symbols))%nat.
Proof.
  induction symbols as [| sym | sym next after IH1 IH2] using pair_induction;
    try (simpl; lia).
  change (merge_symbols best_pair (sym :: next :: after))
    with (if wcs_eqb (pair_key sym next) best_pair
          then swprintf MAX_TOKEN_LEN (sym ++ next)
                 :: merge_symbols best_pair after
          else sym :: merge_symbols best_pair (next :: after)).
  destruct (wcs_eqb (pair_key sym next) best_pair).
  - rewrite !spaced_cons. cbn [length]. rewrite !length_app. cbn [length].
    rewrite length_app.
    pose proof (swprintf_shorter MAX_TOKEN_LEN (sym ++ next)) as Hs.
    rewrite length_app in Hs. lia.
  - rewrite (spaced_cons sym (next :: after)), spaced_cons.
    cbn [length]. rewrite !length_app. lia.
Qed.

Lemma length_spaced_join (symbols : list wstring) :
  length (spaced symbols)
  = (length (join symbols) + match symbols with [] => 0 | _ :: _ => 1 end)%nat.
Proof.
  destruct symbols as [|s rest]; [reflexivity|].
  rewrite spaced_cons. simpl. lia.
Qed.

Lemma merge_symbols_join_length (best_pair : wstring) (symbols : list wstring) :
  (length (join (merge_symbols best_pair symbols)) <= length (join symbols))%nat.
Proof.
  pose proof (merge_symbols_width best_pair symbols) as H.
  pose proof (merge_symbols_length best_pair symbols) as Hl.
  rewrite !length_spaced_join in H.
  destruct symbols as [|s rest].
  - simpl. lia.
  - destruct (merge_symbols best_pair (s :: rest)) eqn:E.
    + simpl. lia.
    + lia.
Qed.

Lemma merge_fires_occurrences (best_pair : wstring) (symbols : list wstring) :
  (merge_fires best_pair symbols <= adjacent_occurrences best_pair symbols)%nat /\
  (adjacent_occurrences best_pair symbols = 0%nat ->
   merge_symbols best_pair symbols = symbols) /\
  (merge_fires best_pair symbols = 0%nat ->
   adjacent_occurrences best_pair symbols = 0%nat).
Proof.
  induction symbols as [| sym | sym next after IH1 IH2] using pair_induction;
    [simpl; auto | simpl; auto |].
  change (merge_symbols best_pair (sym :: next :: after))
    with (if wcs_eqb (pair_key sym next) best_pair
          then swprintf MAX_TOKEN_LEN (sym ++ next)
                 :: merge_symbols best_pair after
          else sym :: merge_symbols best_pair (next :: after)).
  change (merge_fires best_pair (sym :: next :: after))
    with (if wcs_eqb (pair_key sym next) best_pair
          then S (merge_fires best_pair after)
          else merge_fires best_pair (next :: after)).
  change (adjacent_occurrences best_pair (sym :: next :: after))
    with ((if wcs_eqb (pair_key sym next) best_pair then 1 else 0)
          + adjacent_occurrences best_pair (next :: after))%nat.
  destruct IH1 as (L1 & Z1 & F1). destruct IH2 as (L2 & Z2 & F2).
  destruct (wcs_eqb (pair_key sym next) best_pair).
  - split; [|split]; try (intros; lia).
    destruct after as [|third rest]; [simpl in *; lia|].
    change (adjacent_occurrences best_pair (next :: third :: rest))
      with ((if wcs_eqb (pair_key next third) best_pair then 1 else 0)
            + adjacent_occurrences best_pair (third :: rest))%nat.
    lia.
  - split; [|split].
    + lia.
    + intros H. rewrite Z2 by lia. reflexivity.
    + intros H. rewrite F2 by exact H. reflexivity.
Qed.

Lemma merge_entry_conserved (best_pair : wstring) (e e' : VocabEntry.t) :
  merge_entry best_pair e = Some e' -> conserved best_pair e e' /\ fits e'.
Proof.
  rewrite merge_entry_spec. cbv zeta.
  set (symbols := wcstok_all (VocabEntry.token e)).
  destruct (Z.ltb_spec
              (Z.of_nat (length (join (merge_symbols best_pair symbols))))
              MAX_TOKEN_LEN) as [Hlt|]; [|discriminate].
  intros H; injection H as <-.
  assert (Htok : wcstok_all (join (merge_symbols best_pair symbols))
                = merge_symbols best_pair symbols)
    by (apply wcstok_join, merge_symbols_symbols, wcstok_all_symbols).
  split; [|exact Hlt].
  unfold conserved, symbol_count. simpl. fold symbols. rewrite Htok.
  split; [reflexivity|]. split; [reflexivity|]. split.
  - apply merge_symbols_length.
  - apply merge_fires_occurrences.
Qed.

Lemma merge_entry_fits (best_pair : wstring) (e : VocabEntry.t) :
  fits e -> exists e', merge_entry best_pair e = Some e'.
Proof.
  intros Hfit. rewrite merge_entry_spec. cbv zeta.
  pose proof (merge_symbols_join_length best_pair
                (wcstok_all (VocabEntry.token e))) as H1.
  pose proof (length_join_wcstok (VocabEntry.token e)) as H2.
  unfold fits in Hfit.
  destruct (Z.ltb_spec
              (Z.of_nat (length (join (merge_symbols best_pair
                                         (wcstok_all (VocabEntry.token e))))))
              MAX_TOKEN_LEN); [eauto | lia].
Qed.

Lemma merge_pass_conserved (best_pair : wstring) (vocabulary vocabulary' : Vocabulary) :
  merge_pass best_pair vocabulary = Some vocabulary' ->
  Forall2 (conserved best_pair) vocabulary vocabulary' /\ Forall fits vocabulary'.
Proof.
  revert vocabulary'; induction vocabulary as [|e rest IH]; intros vocabulary';
    simpl.
  - intros H; injection H as <-. split; constructor.
  - destruct (merge_entry best_pair e) as [e'|] eqn:Ee; [|discriminate].
    destruct (merge_pass best_pair rest) as [rest'|]; [|discriminate].
    intros H; injection H as <-.
    apply merge_entry_conserved in Ee. destruct Ee.
    destruct (IH rest' eq_refl). split; constructor; auto.
Qed.

Lemma merge_pass_fits (best_pair : wstring) (vocabulary : Vocabulary) :
  Forall fits vocabulary ->
  exists vocabulary', merge_pass best_pair vocabulary = Some vocabulary'.
Proof.
  induction 1 as [|e rest He _ [rest' IH]]; simpl; [eauto|].
  destruct (merge_entry_fits best_pair e He) as [e' ->]. rewrite IH. eauto.
Qed.

(** C3, with the number of symbols as the code leaves it. The merge pass
    rewrites every store whose surface forms fit the array [new_token]; the
    store it returns has as many entries, each with the id and the frequency
    it had, and each with as many symbols as before less one for every time
    the merge fires in it: the same symbols when the pair does not occur. *)
Theorem merge_pass_conservation (best_pair : wstring) (vocabulary : Vocabulary) :
  (Forall fits vocabulary ->
   exists vocabulary', merge_pass best_pair vocabulary = Some vocabulary') /\
  (forall vocabulary',
     merge_pass best_pair vocabulary = Some vocabulary' ->
     length vocabulary' = length vocabulary /\
     Forall2 (conserved best_pair) vocabulary vocabulary') /\
  (forall e,
     merge_fires best_pair (wcstok_all (VocabEntry.token e)) = 0%nat <->
     adjacent_occurrences best_pair (wcstok_all (VocabEntry.token e)) = 0%nat).
Proof.
  split; [apply merge_pass_fits|]. split.
  - intros vocabulary' H. apply merge_pass_conserved in H. destruct H as [H _].
    split; [|exact H]. symmetry. apply (Forall2_length H).
  - intros e.
    pose proof (merge_fires_occurrences best_pair
                  (wcstok_all (VocabEntry.token e))) as (Hle & _ & Hzero).
    split; [exact Hzero | lia].
Qed.

Example merge_pass_low_vocab :
  Forall fits low_vocab /\
  merge_pass (L "e s") low_vocab
  = Some [ VocabEntry.mk (L "l o w") 0 5;
           VocabEntry.mk (L "l o w e r") 1 2;
           VocabEntry.mk (L "n e w es t") 2 6;
           VocabEntry.mk (L "w i d es t") 3 3 ].
Proof.
  split; [repeat constructor; vm_compute; reflexivity | vm_compute; reflexivity].
Qed.

(** C3 as stated fails on an entry in which the merge fires twice: [a b a b]
    has four symbols and its rewriting [ab ab] has two, not three. *)
Lemma merge_pass_conservation_counterexample :
  merge_pass (L "a b") [VocabEntry.mk (L "a b a b") 0 1]
  = Some [VocabEntry.mk (L "ab ab") 0 1] /\
  merge_fires (L "a b") (wcstok_all (L "a b a b")) = 2%nat /\
  symbol_count (VocabEntry.mk (L "a b a b") 0 1) = 4%nat /\
  symbol_count (VocabEntry.mk (L "ab ab") 0 1) = 2%nat /\
  symbol_count (VocabEntry.mk (L "ab ab") 0 1)
  <> (symbol_count (VocabEntry.mk (L "a b a b") 0 1) - 1)%nat.
Proof. vm_compute. repeat split. discriminate. Qed.

(** ** Greedy matching *)

Lemma key_split (x y A B : wstring) :
  ~ In space x -> ~ In space A ->
  x ++ [space] ++ y = A ++ [space] ++ B -> x = A /\ y = B.
Proof.
  revert A; induction x as [|c x IH]; intros [|d A] Hx HA; simpl; intros H.
  - injection H as ->. auto.
  - injection H as Hd _. exfalso. apply HA. left. auto.
  - injection H as Hc _. exfalso. apply Hx. left. auto.
  - injection H as -> H.
    destruct (IH A) as [-> ->]; auto.
    + intros Hin. apply Hx. right. exact Hin.
    + intros Hin. apply HA. right. exact Hin.
Qed.

(** Keys that are not cut by [swprintf] determine their pairs. *)
Lemma pair_key_inj (a b a' b' : wstring) :
  ~ In space a -> ~ In space a' ->
  Z.of_nat (length (a ++ [space] ++ b)) < MAX_PAIR_LEN ->
  Z.of_nat (length (a' ++ [space] ++ b')) < MAX_PAIR_LEN ->
  pair_key a b = pair_key a' b' -> a = a' /\ b = b'.
Proof.
  intros Ha Ha' Hl Hl'. unfold pair_key.
  rewrite !swprintf_fits by assumption. apply key_split; assumption.
Qed.








Example merge_entry_long_entry :
  length (insert_spaces (repeat 97 65)) = 129%nat /\
  merge_entry (L "a a") (VocabEntry.mk (insert_spaces (repeat 97 65)) 0 1)
  = Some (VocabEntry.mk
            (join (spec_merge (L "a") (L "a")
                     (wcstok_all (insert_spaces (repeat 97 65))))) 0 1) /\
  length (join (spec_merge (L "a") (L "a")
                  (wcstok_all (insert_spaces (repeat 97 65))))) = 97%nat.
Proof. vm_compute. repeat split. Qed.

Example merge_entry_abab :
  merge_entry (L "a b") (VocabEntry.mk (L "a b a b") 7 3)
  = Some (VocabEntry.mk (L "ab ab") 7 3) /\
  merge_entry (L "a a") (VocabEntry.mk (L "a a a") 7 3)
  = Some (VocabEntry.mk (L "aa a") 7 3).
Proof. vm_compute. split; reflexivity. Qed.

(** ** The induction loop *)

Lemma merge_loop_merges (remaining : nat) (merge_iter : Z) (vocabulary : Vocabulary) :
  (merges (fst (merge_loop remaining merge_iter vocabulary)) <= remaining)%nat.
Proof.
  revert merge_iter vocabulary; induction remaining as [|remaining IH];
    intros merge_iter vocabulary; cbn [merge_loop];
    [unfold merges; simpl; lia|].
  destruct (find_most_frequent_pair (count_pairs vocabulary))
    as [best_pair best_count].
  destruct (best_count <? 1); [unfold merges; simpl; lia|].
  destruct (merge_pass best_pair vocabulary) as [vocabulary'|];
    [|unfold merges; simpl; lia].
  specialize (IH (merge_iter + 1) vocabulary').
  destruct (merge_loop remaining (merge_iter + 1) vocabulary') as [log final].
  unfold merges in *. simpl in *. lia.
Qed.

Lemma merge_loop_counts (remaining : nat) (merge_iter : Z) (vocabulary : Vocabulary) :
  forall n best_pair best_count,
    In (InfoMerge n best_pair best_count)
       (fst (merge_loop remaining merge_iter vocabulary)) ->
    1 <= best_count.
Proof.
  revert merge_iter vocabulary; induction remaining as [|remaining IH];
    intros merge_iter vocabulary n p c; cbn [merge_loop]; [intros []|].
  destruct (find_most_frequent_pair (count_pairs vocabulary))
    as [best_pair best_count].
  destruct (Z.ltb_spec best_count 1) as [Hlt|Hge].
  - intros [E|[]]; discriminate.
  - destruct (merge_pass best_pair vocabulary) as [vocabulary'|].
    + specialize (IH (merge_iter + 1) vocabulary' n p c).
      destruct (merge_loop remaining (merge_iter + 1) vocabulary') as [log final].
      simpl in *. intros [E|E]; [injection E as _ _ <-; exact Hge | auto].
    + simpl. intros [E|[]]. injection E as _ _ <-. exact Hge.
Qed.

Lemma merge_loop_stops (remaining : nat) (merge_iter : Z) (vocabulary : Vocabulary) :
  snd (find_most_frequent_pair (count_pairs vocabulary)) < 1 ->
  merge_loop (S remaining) merge_iter vocabulary = ([InfoStop], Some vocabulary).
Proof.
  cbn [merge_loop].
  destruct (find_most_frequent_pair (count_pairs vocabulary))
    as [best_pair best_count].
  simpl. intros H. apply Z.ltb_lt in H. rewrite H. reflexivity.
Qed.

Lemma merge_loop_fits (remaining : nat) (merge_iter : Z) (vocabulary : Vocabulary) :
  Forall fits vocabulary ->
  exists final, snd (merge_loop remaining merge_iter vocabulary) = Some final.
Proof.
  revert merge_iter vocabulary; induction remaining as [|remaining IH];
    intros merge_iter vocabulary Hfit; cbn [merge_loop]; [simpl; eauto|].
  destruct (find_most_frequent_pair (count_pairs vocabulary))
    as [best_pair best_count].
  destruct (best_count <? 1); [simpl; eauto|].
  destruct (merge_pass_fits best_pair vocabulary Hfit) as [vocabulary' E].
  rewrite E. apply merge_pass_conserved in E. destruct E as [_ Hfit'].
  specialize (IH (merge_iter + 1) vocabulary' Hfit').
  destruct (merge_loop remaining (merge_iter + 1) vocabulary') as [log final].
  exact IH.
Qed.

Lemma merge_loop_merges_pair (remaining : nat) (merge_iter : Z)
  (vocabulary : Vocabulary) (best_pair : wstring) (best_count : Z) :
  find_most_frequent_pair (count_pairs vocabulary) = (best_pair, best_count) ->
  1 <= best_count ->
  merge_loop (S remaining) merge_iter vocabulary
  = match merge_pass best_pair vocabulary with
    | Some vocabulary' =>
        (InfoMerge (merge_iter + 1) best_pair best_count
           :: fst (merge_loop remaining (merge_iter + 1) vocabulary'),
         snd (merge_loop remaining (merge_iter + 1) vocabulary'))
    | None => ([InfoMerge (merge_iter + 1) best_pair best_count], None)
    end.
Proof.
  intros Hfind Hc. cbn [merge_loop]. rewrite Hfind.
  destruct (Z.ltb_spec best_count 1); [lia|].
  destruct (merge_pass best_pair vocabulary) as [vocabulary'|]; [|reflexivity].
  destruct (merge_loop remaining (merge_iter + 1) vocabulary'); reflexivity.
Qed.

(** C2, with the threshold of the code. The loop logs at most [num_merges]
    merges and every merge it logs is of a pair whose count is at least 1.
    An iteration in which the best count is below 1 prints the stop line and
    leaves the loop with the store as it is. An iteration in which the best
    count is at least 1, a count of 1 included, logs the merge of the best
    pair, applies the merge pass for it and goes on with the store that pass
    returns. On a store whose surface forms fit [new_token] the loop returns
    a store. *)
Theorem bpe_subword_merge_bounded (num_merges : Z) (vocabulary : Vocabulary) :
  Z.of_nat (merges (fst (bpe_subword_merge num_merges vocabulary)))
  <= Z.max 0 num_merges /\
  (forall n best_pair best_count,
     In (InfoMerge n best_pair best_count)
        (fst (bpe_subword_merge num_merges vocabulary)) ->
     1 <= best_count) /\
  (forall remaining merge_iter store,
     snd (find_most_frequent_pair (count_pairs store)) < 1 ->
     merge_loop (S remaining) merge_iter store = ([InfoStop], Some store)) /\
  (forall remaining merge_iter store best_pair best_count,
     find_most_frequent_pair (count_pairs store) = (best_pair, best_count) ->
     1 <= best_count ->
     merge_loop (S remaining) merge_iter store
     = match merge_pass best_pair store with
       | Some store' =>
           (InfoMerge (merge_iter + 1) best_pair best_count
              :: fst (merge_loop remaining (merge_iter + 1) store'),
            snd (merge_loop remaining (merge_iter + 1) store'))
       | None => ([InfoMerge (merge_iter + 1) best_pair best_count], None)
       end) /\
  (Forall fits vocabulary ->
   exists final, snd (bpe_subword_merge num_merges vocabulary) = Some final).
Proof.
  unfold bpe_subword_merge. split; [|split; [|split; [|split]]].
  - pose proof (merge_loop_merges (Z.to_nat num_merges) 0 vocabulary). lia.
  - apply merge_loop_counts.
  - intros remaining merge_iter store. apply merge_loop_stops.
  - intros remaining merge_iter store best_pair best_count.
    apply merge_loop_merges_pair.
  - apply merge_loop_fits.
Qed.

(** C2 as stated fails on a store whose best pair occurs once: the count 1 is
    below 2 and the merge is applied. *)
Lemma bpe_subword_merge_bounded_counterexample :
  find_most_frequent_pair (count_pairs [VocabEntry.mk (L "a b") 0 1])
  = (L "a b", 1) /\
  1 < MIN_TOKEN_FREQ /\
  bpe_subword_merge 1 [VocabEntry.mk (L "a b") 0 1]
  = ([InfoMerge 1 (L "a b") 1], Some [VocabEntry.mk (L "ab") 0 1]).
Proof. vm_compute. repeat split. Qed.

Example bpe_subword_merge_empty (num_merges : Z) :
  0 < num_merges -> bpe_subword_merge num_merges [] = ([InfoStop], Some []).
Proof.
  intros H. unfold bpe_subword_merge.
  destruct (Z.to_nat num_merges) as [|n] eqn:E; [lia|].
  apply merge_loop_stops. vm_compute. reflexivity.
Qed.

(** C1, with the pair the code selects. On the store of the scenario the
    pairs ([e], [s]) and ([s], [t]) both have count 9; the key of ([s], [t])
    is in partition 3404 and that of ([e], [s]) in partition 8157, so the
    selection meets ([s], [t]) first and keeps it. One iteration logs the
    merge of ([s], [t]) with count 9 and rewrites the store to
    [l o w], [l o w e r], [n e w e st], [w i d e st]. *)
Theorem low_vocab_first_merge :
  recorded_count (count_pairs low_vocab) (L "e s") = 9 /\
  recorded_count (count_pairs low_vocab) (L "s t") = 9 /\
  hash (L "s t") = 3404 /\
  hash (L "e s") = 8157 /\
  find_most_frequent_pair (count_pairs low_vocab) = (L "s t", 9) /\
  bpe_subword_merge 1 low_vocab
  = ([InfoMerge 1 (L "s t") 9],
     Some [ VocabEntry.mk (L "l o w") 0 5;
            VocabEntry.mk (L "l o w e r") 1 2;
            VocabEntry.mk (L "n e w e st") 2 6;
            VocabEntry.mk (L "w i d e st") 3 3 ]).
Proof. vm_compute. repeat split. Qed.

(** C1 as stated fails: the selection does not return ([e], [s]) and the
    store after one merge is not the one the claim gives. *)
Lemma low_vocab_first_merge_counterexample :
  find_most_frequent_pair (count_pairs low_vocab) <> (L "e s", 9) /\
  snd (bpe_subword_merge 1 low_vocab)
  <> Some [ VocabEntry.mk (L "l o w") 0 5;
            VocabEntry.mk (L "l o w e r") 1 2;
            VocabEntry.mk (L "n e w es t") 2 6;
            VocabEntry.mk (L "w i d es t") 3 3 ].
Proof. vm_compute. split; discriminate. Qed.

(** ** The vocabulary store *)

Lemma increment_freq_None (token : wstring) (vocabulary : Vocabulary) :
  increment_freq token vocabulary = None <->
  ~ In token (List.map VocabEntry.token vocabulary).
Proof.
  induction vocabulary as [|e rest IH]; simpl.
  - tauto.
  - destruct (wcs_eqb (VocabEntry.token e) token) eqn:E.
    + apply wcs_eqb_eq in E. split; [discriminate | tauto].
    + apply wcs_eqb_neq in E.
      destruct (increment_freq token rest); simpl.
      * split; [discriminate|]. intros H. exfalso.
        assert (Hn : ~ In token (List.map VocabEntry.token rest)) by tauto.
        apply IH in Hn. discriminate.
      * split; [|reflexivity]. intros _ [H|H]; [congruence|].
        apply IH in H; auto.
Qed.

Lemma increment_freq_Some (token : wstring) (vocabulary vocabulary' : Vocabulary) :
  increment_freq token vocabulary = Some vocabulary' ->
  exists before e after,
    vocabulary = before ++ e :: after /\
    VocabEntry.token e = token /\
    ~ In token (List.map VocabEntry.token before) /\
    vocabulary'
    = before ++ VocabEntry.mk token (VocabEntry.id e) (VocabEntry.freq e + 1)
             :: after.
Proof.
  revert vocabulary'; induction vocabulary as [|x rest IH]; intros vocabulary';
    simpl.
  - discriminate.
  - destruct (wcs_eqb (VocabEntry.token x) token) eqn:E.
    + apply wcs_eqb_eq in E. intros H; injection H as <-.
      exists [], x, rest. rewrite E. simpl. tauto.
    + apply wcs_eqb_neq in E.
      destruct (increment_freq token rest) as [rest'|]; simpl; [|discriminate].
      intros H; injection H as <-.
      destruct (IH rest' eq_refl) as (before & e & after & -> & He & Hb & ->).
      exists (x :: before), e, after. simpl. repeat split; auto.
      intros [H|H]; auto.
Qed.

Lemma to_uint32_vocab_size (vocabulary : Vocabulary) :
  vocab_size vocabulary < MAX_VOCAB_SIZE ->
  to_uint32 (vocab_size vocabulary) = vocab_size vocabulary.
Proof.
  unfold to_uint32, vocab_size, MAX_VOCAB_SIZE. intros H.
  apply Z.mod_small. lia.
Qed.

Lemma firstn_length_app {A : Type} (l l' : list A) :
  firstn (length l) (l ++ l') = l.
Proof. induction l as [|x l IH]; simpl; [destruct l' | rewrite IH]; reflexivity. Qed.

(** C8, below the capacity of the store. [add_to_vocabulary] with a surface
    form that is present replaces the first entry that holds it by the same
    entry with the frequency incremented; with a surface form that is not
    present, in a store of fewer than [MAX_VOCAB_SIZE] entries, it appends an
    entry with frequency 1 whose id is the size of the store. In all cases
    the entries that were there keep their positions, ids and surface
    forms. *)
Theorem add_to_vocabulary_upsert (vocabulary : Vocabulary) (token : wstring) :
  (In token (List.map VocabEntry.token vocabulary) ->
   exists before e after,
     vocabulary = before ++ e :: after /\
     VocabEntry.token e = token /\
     ~ In token (List.map VocabEntry.token before) /\
     add_to_vocabulary vocabulary token
     = before ++ VocabEntry.mk token (VocabEntry.id e) (VocabEntry.freq e + 1)
              :: after) /\
  (~ In token (List.map VocabEntry.token vocabulary) ->
   vocab_size vocabulary < MAX_VOCAB_SIZE ->
   add_to_vocabulary vocabulary token
   = vocabulary ++ [VocabEntry.mk token (vocab_size vocabulary) 1]) /\
  firstn (length vocabulary)
         (List.map VocabEntry.id (add_to_vocabulary vocabulary token))
  = List.map VocabEntry.id vocabulary /\
  firstn (length vocabulary)
         (List.map VocabEntry.token (add_to_vocabulary vocabulary token))
  = List.map VocabEntry.token vocabulary.
Proof.
  unfold add_to_vocabulary.
  destruct (increment_freq token vocabulary) as [vocabulary'|] eqn:E.
  - pose proof E as Hsome. apply increment_freq_Some in Hsome.
    destruct Hsome as (before & e & after & -> & He & Hb & ->).
    split; [|split; [|split]].
    + intros _. exists before, e, after. auto.
    + intros Hnot. exfalso. apply Hnot. rewrite map_app. apply in_or_app.
      right. left. exact He.
    + rewrite !map_app. simpl.
      rewrite <- (length_map VocabEntry.id (before ++ e :: after)).
      rewrite map_app. simpl. apply firstn_all.
    + subst token. rewrite !map_app. simpl.
      rewrite <- (length_map VocabEntry.token (before ++ e :: after)).
      rewrite map_app. simpl. apply firstn_all.
  - apply increment_freq_None in E.
    split; [tauto|]. split; [|split].
    + intros _ Hlt. apply Z.ltb_lt in Hlt as Hb. rewrite Hb.
      rewrite to_uint32_vocab_size by exact Hlt. reflexivity.
    + destruct (vocab_size vocabulary <? MAX_VOCAB_SIZE).
      * rewrite map_app, <- (length_map VocabEntry.id vocabulary).
        apply firstn_length_app.
      * rewrite <- (length_map VocabEntry.id vocabulary). apply firstn_all.
    + destruct (vocab_size vocabulary <? MAX_VOCAB_SIZE).
      * rewrite map_app, <- (length_map VocabEntry.token vocabulary).
        apply firstn_length_app.
      * rewrite <- (length_map VocabEntry.token vocabulary). apply firstn_all.
Qed.

Example add_to_vocabulary_low_vocab :
  add_to_vocabulary low_vocab (L "l o w e r")
  = [ VocabEntry.mk (L "l o w") 0 5;
      VocabEntry.mk (L "l o w e r") 1 3;
      VocabEntry.mk (L "n e w e s t") 2 6;
      VocabEntry.mk (L "w i d e s t") 3 3 ] /\
  add_to_vocabulary low_vocab (L "n e w")
  = low_vocab ++ [VocabEntry.mk (L "n e w") 4 1].
Proof. vm_compute. split; reflexivity. Qed.

(** ** The full store is one the program builds *)

Lemma word_of_inj (i j : Z) :
  0 <= i < 456976 -> 0 <= j < 456976 -> word_of i = word_of j -> i = j.
Proof.
  unfold word_of. intros Hi Hj H.
  pose proof (f_equal (fun w => nth 0 w 0) H) as H0.
  pose proof (f_equal (fun w => nth 1 w 0) H) as H1.
  pose proof (f_equal (fun w => nth 2 w 0) H) as H2.
  pose proof (f_equal (fun w => nth 3 w 0) H) as H3.
  cbv beta in H0, H1, H2, H3. cbn [nth] in H0, H1, H2, H3. clear H.
  Z.div_mod_to_equations. lia.
Qed.

Lemma length_indices_from (n : nat) (s : Z) : length (indices_from n s) = n.
Proof. revert s; induction n as [|n IH]; intros s; simpl; auto. Qed.

Lemma fold_add_to_vocabulary_words (n : nat) (s : Z) (acc : Vocabulary) :
  vocab_size acc = s ->
  s + Z.of_nat n <= MAX_VOCAB_SIZE ->
  (forall e i, In e acc -> s <= i < 456976 -> VocabEntry.token e <> word_of i) ->
  fold_left add_to_vocabulary (List.map word_of (indices_from n s)) acc
  = acc ++ List.map (fun i => VocabEntry.mk (word_of i) i 1) (indices_from n s).
Proof.
  revert s acc; induction n as [|n IH]; intros s acc Hsize Hroom Hfresh.
  - simpl. rewrite app_nil_r. reflexivity.
  - cbn [indices_from List.map fold_left].
    assert (Hs : 0 <= s) by (unfold vocab_size in Hsize; lia).
    assert (Hadd : add_to_vocabulary acc (word_of s)
                   = acc ++ [VocabEntry.mk (word_of s) s 1]).
    { unfold add_to_vocabulary.
      assert (Hnone : increment_freq (word_of s) acc = None).
      { apply increment_freq_None. intros Hin. apply in_map_iff in Hin.
        destruct Hin as (e & He & Hin). apply (Hfresh e s Hin); auto.
        unfold MAX_VOCAB_SIZE in Hroom. lia. }
      rewrite Hnone.
      assert (Hlt : vocab_size acc < MAX_VOCAB_SIZE) by lia.
      apply Z.ltb_lt in Hlt as Hb. rewrite Hb.
      rewrite to_uint32_vocab_size by exact Hlt. rewrite Hsize. reflexivity. }
    rewrite Hadd. rewrite IH.
    + rewrite <- app_assoc. reflexivity.
    + unfold vocab_size in *. rewrite length_app. simpl. lia.
    + lia.
    + intros e i Hin Hi. apply in_app_or in Hin. destruct Hin as [Hin|[<-|[]]].
      * apply Hfresh; [exact Hin | lia].
      * simpl. intros Heq. apply word_of_inj in Heq;
          unfold MAX_VOCAB_SIZE in Hroom; lia.
Qed.

(** [full_vocab] is the store [tokenize] builds from the text of its
    [MAX_VOCAB_SIZE] words. *)
Lemma full_vocab_tokenize :
  tokenize (List.map word_of (indices_from (Z.to_nat MAX_VOCAB_SIZE) 0)) []
  = full_vocab.
Proof.
  unfold tokenize. rewrite firstn_all2.
  - rewrite fold_add_to_vocabulary_words.
    + reflexivity.
    + reflexivity.
    + rewrite Z2Nat.id by (unfold MAX_VOCAB_SIZE; lia). lia.
    + intros e i [].
  - rewrite length_map, length_indices_from. unfold MAX_VOCAB_SIZE, MAX_TOKENS. lia.
Qed.

Lemma full_vocab_size : vocab_size full_vocab = MAX_VOCAB_SIZE.
Proof. vm_compute. reflexivity. Qed.

Lemma full_vocab_absent :
  ~ In (L "zzzzz") (List.map VocabEntry.token full_vocab).
Proof. apply increment_freq_None. vm_compute. reflexivity. Qed.

(** C8 as stated fails on a store that holds [MAX_VOCAB_SIZE] entries: a
    surface form that is not present is not appended. *)
Lemma add_to_vocabulary_upsert_counterexample :
  ~ In (L "zzzzz") (List.map VocabEntry.token full_vocab) /\
  add_to_vocabulary full_vocab (L "zzzzz")
  <> full_vocab ++ [VocabEntry.mk (L "zzzzz") (vocab_size full_vocab) 1].
Proof.
  split; [exact full_vocab_absent|].
  intros H. apply (f_equal vocab_size) in H. revert H.
  vm_compute. discriminate.
Qed.

(** C9. In a store that holds [MAX_VOCAB_SIZE] entries, [add_to_vocabulary]
    with a surface form that is not present returns the store as it is, and
    the loop of [tokenize] goes on with the tokens that follow. *)
Theorem add_to_vocabulary_at_capacity (vocabulary : Vocabulary)
  (token : wstring) (rest : list wstring) :
  MAX_VOCAB_SIZE <= vocab_size vocabulary ->
  ~ In token (List.map VocabEntry.token vocabulary) ->
  add_to_vocabulary vocabulary token = vocabulary /\
  tokenize (token :: rest) vocabulary
  = fold_left add_to_vocabulary (firstn (Z.to_nat (MAX_TOKENS - 1)) rest)
              vocabulary.
Proof.
  intros Hfull Habsent.
  assert (E : add_to_vocabulary vocabulary token = vocabulary).
  { unfold add_to_vocabulary. apply increment_freq_None in Habsent.
    rewrite Habsent.
    destruct (Z.ltb_spec (vocab_size vocabulary) MAX_VOCAB_SIZE);
      [lia | reflexivity]. }
  split; [exact E|].
  unfold tokenize.
  replace (Z.to_nat MAX_TOKENS) with (S (Z.to_nat (MAX_TOKENS - 1)))
    by (unfold MAX_TOKENS; lia).
  cbn [firstn fold_left]. rewrite E. reflexivity.
Qed.

Lemma add_to_vocabulary_at_capacity_witness :
  MAX_VOCAB_SIZE <= vocab_size full_vocab /\
  ~ In (L "zzzzz") (List.map VocabEntry.token full_vocab) /\
  add_to_vocabulary full_vocab (L "zzzzz") = full_vocab /\
  tokenize [L "zzzzz"; L "aaaa"] full_vocab
  = fold_left add_to_vocabulary (firstn (Z.to_nat (MAX_TOKENS - 1)) [L "aaaa"])
              full_vocab.
Proof.
  assert (Hfull : MAX_VOCAB_SIZE <= vocab_size full_vocab)
    by (rewrite full_vocab_size; lia).
  split; [exact Hfull|]. split; [exact full_vocab_absent|].
  exact (add_to_vocabulary_at_capacity full_vocab (L "zzzzz") [L "aaaa"]
           Hfull full_vocab_absent).
Defined.

(** * Further properties *)

(** ** The hash *)

Lemma hash_step_mod (g : Z) (c : wchar_t) :
  hash_step (g mod 2 ^ 32) c = (33 * g + c) mod 2 ^ 32.
Proof.
  unfold hash_step, to_uint32. rewrite Z.shiftl_mul_pow2 by lia.
  change (2 ^ 5) with 32. change (2 ^ 32) with 4294967296.
  Z.div_mod_to_equations. lia.
Qed.

Lemma fold_hash_step_mod (pair : wstring) (g : Z) :
  fold_left hash_step pair (g mod 2 ^ 32)
  = fold_left (fun h c => 33 * h + c) pair g mod 2 ^ 32.
Proof.
  revert g; induction pair as [|c pair IH]; intros g; simpl; [reflexivity|].
  rewrite hash_step_mod. apply IH.
Qed.

(** X1. The shift-and-add loop of [hash] computes the polynomial hash
    [33 * h + c] from 5381: wrapping to 32 bits at each step gives the same
    value as wrapping once at the end, and the result is a valid partition
    index. *)
Theorem hash_is_djb2 (pair : wstring) :
  hash pair = (djb2 pair mod 2 ^ 32) mod HASH_SIZE /\
  0 <= hash pair < HASH_SIZE.
Proof.
  split; [|apply hash_range].
  unfold hash, djb2. rewrite <- fold_hash_step_mod. reflexivity.
Qed.

(** ** Lookups in the table *)

Lemma find_entries_bucket (map : BPE_HashMap) (key : wstring) :
  well_formed map ->
  find (fun e => wcs_eqb (BPE_Pair.pair e) key) (entries map)
  = find (fun e => wcs_eqb (BPE_Pair.pair e) key) (map (hash key)).
Proof.
  intros Hwf. unfold entries.
  rewrite (find_flat_map_bucket map key partitions Hwf NoDup_partitions).
  destruct (in_dec Z.eq_dec (hash key) partitions) as [_|Hn]; [reflexivity|].
  exfalso. apply Hn, In_partitions, hash_range.
Qed.

Lemma find_chain_increment_same (key : wstring) (chain chain' : list BPE_Pair.t) :
  chain_increment key chain = Some chain' ->
  option_map BPE_Pair.id (find (fun e => wcs_eqb (BPE_Pair.pair e) key) chain')
  = option_map BPE_Pair.id (find (fun e => wcs_eqb (BPE_Pair.pair e) key) chain)
  /\ find (fun e => wcs_eqb (BPE_Pair.pair e) key) chain <> None.
Proof.
  revert chain'; induction chain as [|entry next IH]; intros chain'; simpl.
  - discriminate.
  - destruct (wcs_eqb (BPE_Pair.pair entry) key) eqn:E.
    + intros H; injection H as <-. simpl. rewrite E. simpl.
      split; [reflexivity | discriminate].
    + destruct (chain_increment key next) as [next'|]; simpl; [|discriminate].
      intros H; injection H as <-. simpl. rewrite E. apply IH. reflexivity.
Qed.

Lemma find_chain_increment_other (pair key : wstring)
  (chain chain' : list BPE_Pair.t) :
  pair <> key ->
  chain_increment pair chain = Some chain' ->
  find (fun e => wcs_eqb (BPE_Pair.pair e) key) chain'
  = find (fun e => wcs_eqb (BPE_Pair.pair e) key) chain.
Proof.
  intros Hne.
  revert chain'; induction chain as [|entry next IH]; intros chain'; simpl.
  - discriminate.
  - destruct (wcs_eqb (BPE_Pair.pair entry) pair) eqn:E.
    + apply wcs_eqb_eq in E. intros H; injection H as <-. simpl.
      assert (wcs_eqb (BPE_Pair.pair entry) key = false) as ->
          by (apply wcs_eqb_neq; congruence).
      reflexivity.
    + destruct (chain_increment pair next) as [next'|]; simpl; [|discriminate].
      intros H; injection H as <-. simpl.
      destruct (wcs_eqb (BPE_Pair.pair entry) key); [reflexivity|].
      apply IH. reflexivity.
Qed.

Lemma recorded_id_add_pair (map : BPE_HashMap) (pair key : wstring) (id : Z) :
  well_formed map ->
  recorded_id (add_pair map pair id) key
  = match recorded_id map key with
    | Some tag => Some tag
    | None => if wcs_eqb pair key then Some id else None
    end.
Proof.
  intros Hwf. unfold recorded_id.
  rewrite (find_entries_bucket _ key (well_formed_add_pair map pair id Hwf)).
  rewrite (find_entries_bucket map key Hwf).
  unfold add_pair.
  destruct (Z.eq_dec (hash key) (hash pair)) as [Eh|Hne].
  - rewrite Eh.
    destruct (wcs_eqb pair key) eqn:E.
    + apply wcs_eqb_eq in E. subst key.
      destruct (chain_increment pair (map (hash pair))) as [chain'|] eqn:Ec;
        rewrite set_chain_same.
      * apply find_chain_increment_same in Ec. destruct Ec as [Eid Hsome].
        rewrite Eid.
        destruct (find _ (map (hash pair))); [reflexivity | congruence].
      * apply chain_increment_None in Ec. simpl. rewrite wcs_eqb_refl.
        rewrite find_none_keys by exact Ec. reflexivity.
    + apply wcs_eqb_neq in E.
      destruct (chain_increment pair (map (hash pair))) as [chain'|] eqn:Ec;
        rewrite set_chain_same.
      * rewrite (find_chain_increment_other pair key _ _ E Ec).
        destruct (find _ (map (hash pair))); reflexivity.
      * simpl. apply wcs_eqb_neq in E. rewrite E.
        destruct (find _ (map (hash pair))); reflexivity.
  - assert (wcs_eqb pair key = false) as ->
        by (apply wcs_eqb_neq; congruence).
    destruct (chain_increment pair (map (hash pair)));
      rewrite set_chain_other by exact Hne;
      destruct (find _ (map (hash key))); reflexivity.
Qed.

(** X2. In a table built by [add_pair], one more [add_pair] adds one to the
    count recorded for its key and leaves the count of every other key as it
    is; the tag recorded for a key is the one given when the key was
    inserted, and later calls do not change it. *)
Theorem add_pair_then_lookup (map : BPE_HashMap) (pair key : wstring) (id : Z) :
  reachable map ->
  recorded_count (add_pair map pair id) key
  = recorded_count map key + (if wcs_eqb pair key then 1 else 0) /\
  recorded_id (add_pair map pair id) key
  = match recorded_id map key with
    | Some tag => Some tag
    | None => if wcs_eqb pair key then Some id else None
    end.
Proof.
  intros Hr. apply reachable_well_formed in Hr. split.
  - apply recorded_count_add_pair, Hr.
  - apply recorded_id_add_pair, Hr.
Qed.

Lemma add_pair_then_lookup_witness :
  reachable (add_pair create_bpe_hashmap (L "e s") 2) /\
  recorded_count
    (add_pair (add_pair create_bpe_hashmap (L "e s") 2) (L "e s") 3) (L "e s")
  = recorded_count (add_pair create_bpe_hashmap (L "e s") 2) (L "e s")
    + (if wcs_eqb (L "e s") (L "e s") then 1 else 0).
Proof.
  assert (Hr : reachable (add_pair create_bpe_hashmap (L "e s") 2))
    by apply reachable_add_pair, reachable_create.
  split; [exact Hr|].
  exact (proj1 (add_pair_then_lookup _ (L "e s") (L "e s") 3 Hr)).
Defined.

Lemma well_formed_add_pairs (calls : list (wstring * Z)) (map : BPE_HashMap) :
  well_formed map -> well_formed (add_pairs calls map).
Proof.
  revert map; induction calls as [|call calls IH]; intros map Hwf; simpl; auto.
  apply IH, well_formed_add_pair, Hwf.
Qed.

Lemma recorded_count_add_pairs (calls : list (wstring * Z)) (map : BPE_HashMap)
  (key : wstring) :
  well_formed map ->
  recorded_count (add_pairs calls map) key
  = recorded_count map key + calls_with key calls.
Proof.
  unfold calls_with.
  revert map; induction calls as [|call calls IH]; intros map Hwf.
  - simpl. lia.
  - cbn [add_pairs fold_left]. fold (add_pairs calls (add_pair map (fst call) (snd call))).
    rewrite IH by (apply well_formed_add_pair, Hwf).
    rewrite recorded_count_add_pair by exact Hwf.
    cbn [filter]. destruct (wcs_eqb (fst call) key); cbn [length]; lia.
Qed.

(** X3. After any sequence of calls of [add_pair] on a fresh table, the count
    recorded for a key is the number of calls made with that key; the counts
    therefore do not depend on the order of the calls. *)
Theorem add_pairs_counts_calls (calls calls' : list (wstring * Z)) (key : wstring) :
  recorded_count (add_pairs calls create_bpe_hashmap) key = calls_with key calls /\
  (Permutation calls calls' ->
   recorded_count (add_pairs calls create_bpe_hashmap) key
   = recorded_count (add_pairs calls' create_bpe_hashmap) key).
Proof.
  assert (H : forall l, recorded_count (add_pairs l create_bpe_hashmap) key
                        = calls_with key l).
  { intros l. rewrite recorded_count_add_pairs by apply well_formed_create.
    rewrite recorded_count_create. lia. }
  split; [apply H|].
  intros Hperm. rewrite !H. unfold calls_with. f_equal.
  apply Permutation_length.
  induction Hperm as [|x l l' _ IH|x y l|l l' l'' _ IH1 _ IH2]; simpl.
  - constructor.
  - destruct (wcs_eqb (fst x) key); [constructor|]; exact IH.
  - destruct (wcs_eqb (fst x) key), (wcs_eqb (fst y) key);
      try apply Permutation_refl. apply perm_swap.
  - eapply Permutation_trans; eassumption.
Qed.

(** ** The best count is the greatest count *)

Lemma find_NoDup_keys (es : list BPE_Pair.t) (e : BPE_Pair.t) :
  NoDup (List.map BPE_Pair.pair es) -> In e es ->
  find (fun x => wcs_eqb (BPE_Pair.pair x) (BPE_Pair.pair e)) es = Some e.
Proof.
  induction es as [|x es IH]; intros Hnd Hin; [destruct Hin|].
  simpl in Hnd. inversion Hnd as [|? ? Hx Hnd']; subst. simpl.
  destruct Hin as [->|Hin].
  - rewrite wcs_eqb_refl. reflexivity.
  - destruct (wcs_eqb (BPE_Pair.pair x) (BPE_Pair.pair e)) eqn:E.
    + apply wcs_eqb_eq in E. exfalso. apply Hx. rewrite E.
      apply in_map. exact Hin.
    + apply IH; assumption.
Qed.

Lemma recorded_count_In (map : BPE_HashMap) (key : wstring) :
  recorded_count map key = 0 \/
  exists e, In e (entries map) /\ BPE_Pair.pair e = key /\
            recorded_count map key = BPE_Pair.count e.
Proof.
  unfold recorded_count.
  destruct (find (fun e => wcs_eqb (BPE_Pair.pair e) key) (entries map))
    as [e|] eqn:E; [right | left; reflexivity].
  apply find_some in E. destruct E as [Hin He]. apply wcs_eqb_eq in He.
  exists e. auto.
Qed.

Lemma best_count_greatest (map : BPE_HashMap) :
  reachable map ->
  (forall key, recorded_count map key <= snd (find_most_frequent_pair map)) /\
  (entries map <> [] ->
   1 <= snd (find_most_frequent_pair map) /\
   recorded_count map (fst (find_most_frequent_pair map))
   = snd (find_most_frequent_pair map)).
Proof.
  intros Hr. pose proof (reachable_counts_positive map Hr) as Hpos.
  pose proof (well_formed_NoDup_keys map (reachable_well_formed map Hr)) as Hnd.
  rewrite find_most_frequent_pair_entries.
  destruct (fold_left_better (entries map) ([], 0))
    as [[Hall ->] | (before & e & after & E & -> & Hgt & Hb & Ha)]; simpl in *.
  - rewrite Forall_forall in Hall, Hpos. split.
    + intros key. destruct (recorded_count_In map key) as [->|(e & He & _ & ->)];
        [lia | auto].
    + intros Hne. destruct (entries map) as [|e es]; [congruence|].
      specialize (Hall e (or_introl eq_refl)).
      specialize (Hpos e (or_introl eq_refl)). simpl in *. lia.
  - assert (Hin : In e (entries map))
      by (rewrite E; apply in_or_app; right; left; reflexivity).
    assert (Hle : forall x, In x (entries map) ->
                            BPE_Pair.count x <= BPE_Pair.count e).
    { intros x Hx. rewrite E in Hx. apply in_app_or in Hx.
      rewrite Forall_forall in Hb, Ha.
      destruct Hx as [Hx|[<-|Hx]]; [specialize (Hb x Hx) | | specialize (Ha x Hx)];
        lia. }
    split.
    + intros key. destruct (recorded_count_In map key) as [->|(x & Hx & _ & ->)];
        [lia | auto].
    + intros _. split; [lia|].
      unfold recorded_count. unfold keys in Hnd.
      rewrite (find_NoDup_keys (entries map) e Hnd Hin). reflexivity.
Qed.

(** X4. On a table built by [add_pair], the count that
    [find_most_frequent_pair] returns is an upper bound of the count recorded
    for every key, and when the table has an entry it is at least 1 and is the
    count recorded for the key returned. *)
Theorem find_most_frequent_pair_greatest (map : BPE_HashMap) (key : wstring) :
  reachable map ->
  recorded_count map key <= snd (find_most_frequent_pair map) /\
  (entries map <> [] ->
   1 <= snd (find_most_frequent_pair map) /\
   recorded_count map (fst (find_most_frequent_pair map))
   = snd (find_most_frequent_pair map)).
Proof.
  intros Hr. destruct (best_count_greatest map Hr) as [H1 H2]. auto.
Qed.

Lemma find_most_frequent_pair_greatest_witness :
  reachable (count_pairs low_vocab) /\
  recorded_count (count_pairs low_vocab) (L "l o")
  <= snd (find_most_frequent_pair (count_pairs low_vocab)).
Proof.
  split; [apply reachable_count_pairs|].
  exact (proj1 (find_most_frequent_pair_greatest (count_pairs low_vocab)
                  (L "l o") (reachable_count_pairs low_vocab))).
Defined.

(** ** [equal_pair] *)

(** X5. [equal_pair] accepts the two tokens a key was made of; when neither
    key is cut by the array of [MAX_PAIR_LEN] characters it accepts no other
    tokens; and tokens that differ only past the end of that array are taken
    for equal. *)
Theorem equal_pair_spec (token1 token2 a b extra : wstring) :
  equal_pair a b (pair_key a b) = true /\
  (~ In space token1 -> ~ In space a ->
   Z.of_nat (length (token1 ++ [space] ++ token2)) < MAX_PAIR_LEN ->
   Z.of_nat (length (a ++ [space] ++ b)) < MAX_PAIR_LEN ->
   (equal_pair token1 token2 (pair_key a b) = true <->
    token1 = a /\ token2 = b)) /\
  (MAX_PAIR_LEN - 1 <= Z.of_nat (length (a ++ [space] ++ b)) ->
   equal_pair a (b ++ extra) (pair_key a b) = true).
Proof.
  unfold equal_pair. fold (pair_key a b). split; [apply wcs_eqb_refl|]. split.
  - intros H1 Ha Hl Hl'. fold (pair_key token1 token2). rewrite wcs_eqb_eq. split.
    + apply pair_key_inj; assumption.
    + intros [-> ->]. reflexivity.
  - intros Hlen. apply wcs_eqb_eq. unfold pair_key, swprintf.
    replace (a ++ [space] ++ b ++ extra) with ((a ++ [space] ++ b) ++ extra)
      by (rewrite <- !app_assoc; reflexivity).
    rewrite firstn_app.
    replace (Z.to_nat (MAX_PAIR_LEN - 1) - length (a ++ [space] ++ b))%nat
      with 0%nat by lia.
    rewrite firstn_O, app_nil_r. reflexivity.
Qed.

(** ** Invariants of the store *)

Lemma indices_from_snoc (n : nat) (s : Z) :
  indices_from (S n) s = indices_from n s ++ [s + Z.of_nat n].
Proof.
  revert s; induction n as [|n IH]; intros s.
  - simpl. f_equal. lia.
  - change (indices_from (S (S n)) s) with (s :: indices_from (S n) (s + 1)).
    rewrite IH. simpl. do 3 f_equal. lia.
Qed.

Lemma store_ok_nil : store_ok [].
Proof.
  unfold store_ok, vocab_size, MAX_VOCAB_SIZE. simpl.
  repeat split; try constructor. lia.
Qed.

Lemma store_ok_add_to_vocabulary (vocabulary : Vocabulary) (token : wstring) :
  store_ok vocabulary -> store_ok (add_to_vocabulary vocabulary token).
Proof.
  intros (Hnd & Hid & Hfreq & Hsize). unfold add_to_vocabulary.
  destruct (increment_freq token vocabulary) as [vocabulary'|] eqn:E.
  - apply increment_freq_Some in E.
    destruct E as (before & e & after & -> & He & _ & ->).
    unfold store_ok, vocab_size in *.
    rewrite !map_app, !length_app in *. simpl in *. rewrite He in Hnd.
    repeat split; auto.
    apply Forall_app in Hfreq. destruct Hfreq as [Hb Ha].
    inversion Ha; subst. apply Forall_app. split; [exact Hb|].
    constructor; [simpl; lia | assumption].
  - apply increment_freq_None in E.
    destruct (Z.ltb_spec (vocab_size vocabulary) MAX_VOCAB_SIZE) as [Hlt|Hge];
      [|unfold store_ok; auto].
    rewrite to_uint32_vocab_size by exact Hlt.
    unfold store_ok, vocab_size in *.
    rewrite !map_app, length_app. simpl. repeat split.
    + apply NoDup_app; [exact Hnd | repeat constructor; intros [] |].
      intros a Ha [<-|[]]. auto.
    + rewrite Nat.add_1_r, indices_from_snoc, Hid. reflexivity.
    + apply Forall_app. split; [exact Hfreq|]. repeat constructor. simpl. lia.
    + lia.
Qed.

Lemma store_ok_fold (tokens : list wstring) (vocabulary : Vocabulary) :
  store_ok vocabulary ->
  store_ok (fold_left add_to_vocabulary tokens vocabulary).
Proof.
  revert vocabulary; induction tokens as [|t tokens IH]; intros vocabulary H;
    simpl; auto.
  apply IH, store_ok_add_to_vocabulary, H.
Qed.

(** X6. [add_to_vocabulary] keeps the store well formed: surface forms stay
    distinct, the id of every entry is its position, frequencies are at least
    one and the size never exceeds [MAX_VOCAB_SIZE]. So does the loop of
    [tokenize], and the store it builds from the empty one is well formed. *)
Theorem add_to_vocabulary_keeps_store_ok (vocabulary : Vocabulary)
  (token : wstring) (tokens : list wstring) :
  store_ok vocabulary ->
  store_ok (add_to_vocabulary vocabulary token) /\
  store_ok (tokenize tokens vocabulary) /\
  store_ok (tokenize tokens []).
Proof.
  intros H. split; [apply store_ok_add_to_vocabulary, H|].
  split; apply store_ok_fold; [exact H | apply store_ok_nil].
Qed.

Lemma add_to_vocabulary_keeps_store_ok_witness :
  store_ok [] /\
  store_ok (add_to_vocabulary [] (L "low")) /\
  store_ok (tokenize [L "low"; L "new"; L "low"] []) /\
  store_ok (tokenize [L "low"; L "new"; L "low"] []).
Proof.
  split; [exact store_ok_nil|].
  exact (add_to_vocabulary_keeps_store_ok [] (L "low")
           [L "low"; L "new"; L "low"] store_ok_nil).
Defined.

(** ** Frequencies *)

Lemma freq_of_increment_freq (token t : wstring)
  (vocabulary vocabulary' : Vocabulary) :
  increment_freq token vocabulary = Some vocabulary' ->
  freq_of vocabulary' t
  = freq_of vocabulary t + (if wcs_eqb token t then 1 else 0).
Proof.
  unfold freq_of.
  revert vocabulary'; induction vocabulary as [|e rest IH]; intros vocabulary';
    simpl.
  - discriminate.
  - destruct (wcs_eqb (VocabEntry.token e) token) eqn:E.
    + apply wcs_eqb_eq in E. intros H; injection H as <-. simpl. rewrite E.
      destruct (wcs_eqb token t); simpl; lia.
    + destruct (increment_freq token rest) as [rest'|]; simpl; [|discriminate].
      intros H; injection H as <-. simpl.
      destruct (wcs_eqb (VocabEntry.token e) t) eqn:E'.
      * apply wcs_eqb_eq in E'. subst t. rewrite wcs_eqb_neq in E.
        assert (wcs_eqb token (VocabEntry.token e) = false) as ->
            by (apply wcs_eqb_neq; congruence).
        lia.
      * apply IH. reflexivity.
Qed.

Lemma find_none_tokens (t : wstring) (vocabulary : Vocabulary) :
  ~ In t (List.map VocabEntry.token vocabulary) ->
  find (fun e => wcs_eqb (VocabEntry.token e) t) vocabulary = None.
Proof.
  induction vocabulary as [|e rest IH]; simpl; [reflexivity|].
  intros H. destruct (wcs_eqb (VocabEntry.token e) t) eqn:E.
  - apply wcs_eqb_eq in E. tauto.
  - apply IH. tauto.
Qed.

Lemma freq_of_add_to_vocabulary (vocabulary : Vocabulary) (token t : wstring) :
  In token (List.map VocabEntry.token vocabulary)
  \/ vocab_size vocabulary < MAX_VOCAB_SIZE ->
  freq_of (add_to_vocabulary vocabulary token) t
  = freq_of vocabulary t + (if wcs_eqb token t then 1 else 0).
Proof.
  intros H. unfold add_to_vocabulary.
  destruct (increment_freq token vocabulary) as [vocabulary'|] eqn:E.
  - apply freq_of_increment_freq. exact E.
  - apply increment_freq_None in E. destruct H as [H|H]; [tauto|].
    apply Z.ltb_lt in H. rewrite H.
    unfold freq_of. rewrite find_app_first. simpl.
    destruct (wcs_eqb token t) eqn:Et.
    + apply wcs_eqb_eq in Et. subst t.
      rewrite find_none_tokens by exact E. simpl. lia.
    + destruct (find _ vocabulary); lia.
Qed.

(** X7. When the surface form is present or the store has room,
    [add_to_vocabulary] adds one to the frequency recorded for the surface
    form and leaves the frequency recorded for every other one as it is. *)
Theorem add_to_vocabulary_then_freq (vocabulary : Vocabulary) (token t : wstring) :
  In token (List.map VocabEntry.token vocabulary)
  \/ vocab_size vocabulary < MAX_VOCAB_SIZE ->
  freq_of (add_to_vocabulary vocabulary token) t
  = freq_of vocabulary t + (if wcs_eqb token t then 1 else 0).
Proof. apply freq_of_add_to_vocabulary. Qed.

Lemma add_to_vocabulary_then_freq_witness :
  (In (L "l o w") (List.map VocabEntry.token low_vocab)
   \/ vocab_size low_vocab < MAX_VOCAB_SIZE) /\
  freq_of (add_to_vocabulary low_vocab (L "l o w")) (L "l o w")
  = freq_of low_vocab (L "l o w")
    + (if wcs_eqb (L "l o w") (L "l o w") then 1 else 0).
Proof.
  assert (H : In (L "l o w") (List.map VocabEntry.token low_vocab)
              \/ vocab_size low_vocab < MAX_VOCAB_SIZE)
    by (left; left; reflexivity).
  split; [exact H|].
  exact (add_to_vocabulary_then_freq low_vocab (L "l o w") (L "l o w") H).
Defined.

Lemma vocab_size_add_to_vocabulary (vocabulary : Vocabulary) (token : wstring) :
  vocab_size vocabulary <= vocab_size (add_to_vocabulary vocabulary token).
Proof.
  unfold add_to_vocabulary, vocab_size.
  destruct (increment_freq token vocabulary) as [vocabulary'|] eqn:E.
  - apply increment_freq_Some in E.
    destruct E as (before & e & after & -> & _ & _ & ->).
    rewrite !length_app. simpl. lia.
  - destruct (Z.of_nat (length vocabulary) <? MAX_VOCAB_SIZE);
      [rewrite length_app; simpl|]; lia.
Qed.

Lemma vocab_size_fold (tokens : list wstring) (vocabulary : Vocabulary) :
  vocab_size vocabulary
  <= vocab_size (fold_left add_to_vocabulary tokens vocabulary).
Proof.
  revert vocabulary; induction tokens as [|t tokens IH]; intros vocabulary;
    simpl; [lia|].
  pose proof (vocab_size_add_to_vocabulary vocabulary t).
  specialize (IH (add_to_vocabulary vocabulary t)). lia.
Qed.

Lemma freq_of_fold (tokens : list wstring) (vocabulary : Vocabulary) (t : wstring) :
  vocab_size (fold_left add_to_vocabulary tokens vocabulary) < MAX_VOCAB_SIZE ->
  freq_of (fold_left add_to_vocabulary tokens vocabulary) t
  = freq_of vocabulary t + occurrences t tokens.
Proof.
  unfold occurrences.
  revert vocabulary; induction tokens as [|x tokens IH]; intros vocabulary Hlt.
  - simpl. lia.
  - cbn [fold_left] in *. rewrite IH by exact Hlt.
    pose proof (vocab_size_fold tokens (add_to_vocabulary vocabulary x)).
    pose proof (vocab_size_add_to_vocabulary vocabulary x).
    rewrite freq_of_add_to_vocabulary by (right; lia).
    cbn [filter]. destruct (wcs_eqb x t); cbn [length]; lia.
Qed.

(** X8. When the store [tokenize] returns is not full, nothing was dropped:
    the frequency it records for a surface form is the one recorded before
    plus the number of times the form occurs among the tokens processed (the
    first [MAX_TOKENS] of the text). *)
Theorem tokenize_counts_words (tokens : list wstring) (vocabulary : Vocabulary)
  (t : wstring) :
  vocab_size (tokenize tokens vocabulary) < MAX_VOCAB_SIZE ->
  freq_of (tokenize tokens vocabulary) t
  = freq_of vocabulary t
    + occurrences t (firstn (Z.to_nat MAX_TOKENS) tokens).
Proof. unfold tokenize. apply freq_of_fold. Qed.

Lemma tokenize_counts_words_witness :
  vocab_size (tokenize [L "low"; L "new"; L "low"] []) < MAX_VOCAB_SIZE /\
  freq_of (tokenize [L "low"; L "new"; L "low"] []) (L "low")
  = freq_of [] (L "low")
    + occurrences (L "low")
        (firstn (Z.to_nat MAX_TOKENS) [L "low"; L "new"; L "low"]).
Proof.
  assert (H : vocab_size (tokenize [L "low"; L "new"; L "low"] [])
              < MAX_VOCAB_SIZE) by (vm_compute; reflexivity).
  split; [exact H|].
  exact (tokenize_counts_words [L "low"; L "new"; L "low"] [] (L "low") H).
Defined.

Example tokenize_low_new_low :
  tokenize [L "low"; L "new"; L "low"] []
  = [VocabEntry.mk (L "low") 0 2; VocabEntry.mk (L "new") 1 1].
Proof. vm_compute. reflexivity. Qed.

(** ** Conversion to subwords *)

Lemma length_insert_spaces (word : wstring) :
  word <> [] ->
  Z.of_nat (length (insert_spaces word)) = 2 * Z.of_nat (length word) - 1.
Proof.
  induction word as [|c rest IH]; [congruence|]. intros _.
  destruct rest as [|d rest]; [reflexivity|].
  change (insert_spaces (c :: d :: rest))
    with (c :: space :: insert_spaces (d :: rest)).
  cbn [length] in *. rewrite !Nat2Z.inj_succ in *.
  specialize (IH ltac:(discriminate)). lia.
Qed.

Lemma wcstok_insert_spaces (word : wstring) :
  wcstok_all (insert_spaces word)
  = List.map (fun c => [c]) (filter (fun c => negb (c =? space)) word).
Proof.
  unfold wcstok_all.
  induction word as [|c rest IH]; [reflexivity|].
  destruct rest as [|d rest].
  - simpl. destruct (c =? space); reflexivity.
  - change (insert_spaces (c :: d :: rest))
      with (c :: space :: insert_spaces (d :: rest)).
    cbn [filter]. cbn [wcstok_from].
    destruct (c =? space) eqn:E; cbn [negb].
    + change (space =? space) with true. cbn iota. exact IH.
    + change (space =? space) with true. cbn iota. cbn [app List.map].
      f_equal. exact IH.
Qed.

Lemma filter_no_space (word : wstring) :
  ~ In space word -> filter (fun c => negb (c =? space)) word = word.
Proof.
  induction word as [|c rest IH]; intros H; simpl; [reflexivity|].
  destruct (c =? space) eqn:E.
  - apply Z.eqb_eq in E. exfalso. apply H. left. auto.
  - simpl. rewrite IH; [reflexivity|]. intros Hin. apply H. right. exact Hin.
Qed.

Lemma concat_singletons {A : Type} (l : list A) :
  concat (List.map (fun c => [c]) l) = l.
Proof. induction l as [|x l IH]; simpl; [|rewrite IH]; reflexivity. Qed.

Lemma convert_entry_spec (e : VocabEntry.t) :
  convert_entry e
  = match VocabEntry.token e with
    | [] => None
    | _ :: _ => Some (VocabEntry.mk (insert_spaces (VocabEntry.token e))
                                    (VocabEntry.id e) (VocabEntry.freq e))
    end.
Proof.
  unfold convert_entry. cbv zeta.
  destruct (VocabEntry.token e) as [|c rest] eqn:E; [reflexivity|].
  pose proof (length_insert_spaces (c :: rest) ltac:(discriminate)) as H.
  destruct (Z.ltb_spec (Z.of_nat (length (insert_spaces (c :: rest))))
                       (Z.of_nat (length (c :: rest)) * 2)); [reflexivity | lia].
Qed.

Lemma convert_entry_converted (e e' : VocabEntry.t) :
  convert_entry e = Some e' -> converted e e'.
Proof.
  intros H. rewrite convert_entry_spec in H.
  assert (Hne : VocabEntry.token e <> [])
    by (intros E; rewrite E in H; discriminate).
  assert (He' : e' = VocabEntry.mk (insert_spaces (VocabEntry.token e))
                                   (VocabEntry.id e) (VocabEntry.freq e)).
  { destruct (VocabEntry.token e) eqn:E; [congruence|].
    rewrite <- E in H. congruence. }
  subst e'. unfold converted, spelling, symbol_count.
  cbn [VocabEntry.token VocabEntry.id VocabEntry.freq].
  rewrite wcstok_insert_spaces.
  split; [reflexivity|]. split; [reflexivity|]. split; [reflexivity|].
  split; [apply length_insert_spaces; exact Hne|].
  intros Hsp. rewrite filter_no_space by exact Hsp.
  rewrite concat_singletons, length_map. auto.
Qed.

Lemma convert_vocab_converted (vocabulary vocabulary' : Vocabulary) :
  convert_vocab_to_subwords vocabulary = Some vocabulary' ->
  Forall2 converted vocabulary vocabulary'.
Proof.
  revert vocabulary'; induction vocabulary as [|e rest IH]; intros vocabulary';
    simpl.
  - intros H; injection H as <-. constructor.
  - destruct (convert_entry e) as [e'|] eqn:Ee; [|discriminate].
    destruct (convert_vocab_to_subwords rest) as [rest'|]; [|discriminate].
    intros H; injection H as <-.
    constructor; [apply convert_entry_converted, Ee | apply IH; reflexivity].
Qed.

Lemma convert_vocab_defined (vocabulary : Vocabulary) :
  Forall (fun e => VocabEntry.token e <> []) vocabulary <->
  exists vocabulary', convert_vocab_to_subwords vocabulary = Some vocabulary'.
Proof.
  induction vocabulary as [|e rest IH]; simpl.
  - split; [eauto | constructor].
  - rewrite convert_entry_spec. split.
    + intros H. inversion H as [|? ? He Hrest]; subst.
      apply IH in Hrest. destruct Hrest as [rest' ->].
      destruct (VocabEntry.token e); [congruence | eauto].
    + intros [vocabulary' H].
      destruct (VocabEntry.token e) eqn:E; [discriminate|].
      destruct (convert_vocab_to_subwords rest) as [rest'|]; [|discriminate].
      constructor; [congruence | apply IH; eauto].
Qed.

(** X9. [convert_vocab_to_subwords] rewrites the store exactly when no word
    is empty (an empty word makes it write past a zero-sized block). It keeps
    the number of entries, the ids and the frequencies; the symbols of the new
    surface form are the characters of the word other than spaces, one per
    symbol, and its length is twice that of the word less one; for a word
    without spaces, removing the separators gives the word back. *)
Theorem convert_vocab_to_subwords_spec (vocabulary : Vocabulary) :
  (Forall (fun e => VocabEntry.token e <> []) vocabulary <->
   exists vocabulary', convert_vocab_to_subwords vocabulary = Some vocabulary') /\
  (forall vocabulary',
     convert_vocab_to_subwords vocabulary = Some vocabulary' ->
     length vocabulary' = length vocabulary /\
     Forall2 converted vocabulary vocabulary').
Proof.
  split; [apply convert_vocab_defined|].
  intros vocabulary' H. apply convert_vocab_converted in H.
  split; [symmetry; apply (Forall2_length H) | exact H].
Qed.

Example convert_vocab_to_subwords_low :
  convert_vocab_to_subwords
    [VocabEntry.mk (L "low") 0 5; VocabEntry.mk (L "lower") 1 2]
  = Some [VocabEntry.mk (L "l o w") 0 5; VocabEntry.mk (L "l o w e r") 1 2] /\
  convert_vocab_to_subwords [VocabEntry.mk [] 0 1] = None.
Proof. vm_compute. split; reflexivity. Qed.

(** ** What a merge keeps of a surface form *)

Lemma merge_symbols_concat (best_pair : wstring) (symbols : list wstring) :
  Z.of_nat (length (join symbols)) < MAX_TOKEN_LEN ->
  concat (merge_symbols best_pair symbols) = concat symbols /\
  (length (spaced (merge_symbols best_pair symbols))
   + merge_fires best_pair symbols
   = length (spaced symbols))%nat.
Proof.
  induction symbols as [| x | x y l IH1 IH2] using pair_induction;
    intros Hlen; [split; reflexivity | split; simpl; [reflexivity | lia] |].
  change (join (x :: y :: l)) with (x ++ space :: y ++ spaced l) in Hlen.
  rewrite length_app in Hlen. cbn [length] in Hlen. rewrite length_app in Hlen.
  change (merge_symbols best_pair (x :: y :: l))
    with (if wcs_eqb (pair_key x y) best_pair
          then swprintf MAX_TOKEN_LEN (x ++ y) :: merge_symbols best_pair l
          else x :: merge_symbols best_pair (y :: l)).
  change (merge_fires best_pair (x :: y :: l))
    with (if wcs_eqb (pair_key x y) best_pair
          then S (merge_fires best_pair l)
          else merge_fires best_pair (y :: l)).
  destruct (wcs_eqb (pair_key x y) best_pair).
  - rewrite swprintf_fits by (rewrite length_app; lia).
    destruct IH1 as [Ec El]; [pose proof (length_spaced_join l); lia|].
    split.
    + cbn [concat]. rewrite Ec, <- app_assoc. reflexivity.
    + rewrite !spaced_cons. cbn [length]. rewrite !length_app. cbn [length].
      rewrite !length_app. lia.
  - destruct IH2 as [Ec El].
    { change (join (y :: l)) with (y ++ spaced l). rewrite length_app. lia. }
    split.
    + cbn [concat]. rewrite Ec. reflexivity.
    + rewrite (spaced_cons x (y :: l)), spaced_cons. cbn [length].
      rewrite !length_app. lia.
Qed.

Lemma merge_symbols_nil (best_pair : wstring) (symbols : list wstring) :
  merge_symbols best_pair symbols = [] -> symbols = [].
Proof.
  destruct symbols as [|x [|y l]]; [reflexivity | discriminate |].
  change (merge_symbols best_pair (x :: y :: l))
    with (if wcs_eqb (pair_key x y) best_pair
          then swprintf MAX_TOKEN_LEN (x ++ y) :: merge_symbols best_pair l
          else x :: merge_symbols best_pair (y :: l)).
  destruct (wcs_eqb (pair_key x y) best_pair); discriminate.
Qed.

Lemma merge_entry_word (best_pair : wstring) (e e' : VocabEntry.t) :
  fits e ->
  merge_entry best_pair e = Some e' ->
  spelling e' = spelling e /\
  normal (VocabEntry.token e') /\
  Z.of_nat (length (VocabEntry.token e'))
  + Z.of_nat (merge_fires best_pair (wcstok_all (VocabEntry.token e)))
  = Z.of_nat (length (join (wcstok_all (VocabEntry.token e)))) /\
  (normal (VocabEntry.token e) ->
   adjacent_occurrences best_pair (wcstok_all (VocabEntry.token e)) = 0%nat ->
   VocabEntry.token e' = VocabEntry.token e).
Proof.
  intros Hfit. rewrite merge_entry_spec. cbv zeta.
  set (symbols := wcstok_all (VocabEntry.token e)).
  destruct (Z.ltb_spec
              (Z.of_nat (length (join (merge_symbols best_pair symbols))))
              MAX_TOKEN_LEN) as [Hlt|]; [|discriminate].
  intros H; injection H as <-.
  assert (Hlen : Z.of_nat (length (join symbols)) < MAX_TOKEN_LEN).
  { pose proof (length_join_wcstok (VocabEntry.token e)) as H.
    fold symbols in H. unfold fits in Hfit. lia. }
  assert (Htok : wcstok_all (join (merge_symbols best_pair symbols))
                = merge_symbols best_pair symbols)
    by (apply wcstok_join, merge_symbols_symbols, wcstok_all_symbols).
  destruct (merge_symbols_concat best_pair symbols Hlen) as [Ec El].
  unfold spelling, normal. cbn [VocabEntry.token]. fold symbols.
  rewrite Htok. split; [exact Ec|]. split; [reflexivity|]. split.
  - rewrite !length_spaced_join in El.
    destruct symbols as [|s rest] eqn:Es.
    + simpl. reflexivity.
    + destruct (merge_symbols best_pair (s :: rest)) eqn:Em.
      * apply merge_symbols_nil in Em. discriminate.
      * lia.
  - intros Hnormal Hzero. unfold normal in Hnormal. fold symbols in Hnormal.
    destruct (merge_fires_occurrences best_pair symbols) as (_ & Hsame & _).
    rewrite Hsame by exact Hzero. exact Hnormal.
Qed.

(** X10. On an entry whose surface form fits [new_token], the merge pass
    changes the separators only: the characters of the surface form without
    its separators are the same before and after. The new surface form has
    one separator between symbols and none at the ends, it is shorter than
    the old one in that form by one character for each time the merge fires,
    and it is the old surface form when that one is already in that form and
    the pair does not occur in it. *)
Theorem merge_entry_keeps_spelling (best_pair : wstring) (e e' : VocabEntry.t) :
  fits e ->
  merge_entry best_pair e = Some e' ->
  spelling e' = spelling e /\
  normal (VocabEntry.token e') /\
  Z.of_nat (length (VocabEntry.token e'))
  + Z.of_nat (merge_fires best_pair (wcstok_all (VocabEntry.token e)))
  = Z.of_nat (length (join (wcstok_all (VocabEntry.token e)))) /\
  (normal (VocabEntry.token e) ->
   adjacent_occurrences best_pair (wcstok_all (VocabEntry.token e)) = 0%nat ->
   VocabEntry.token e' = VocabEntry.token e).
Proof. apply merge_entry_word. Qed.

Lemma merge_entry_keeps_spelling_witness :
  fits (VocabEntry.mk (L "n e w e s t") 2 6) /\
  merge_entry (L "e s") (VocabEntry.mk (L "n e w e s t") 2 6)
  = Some (VocabEntry.mk (L "n e w es t") 2 6) /\
  spelling (VocabEntry.mk (L "n e w es t") 2 6)
  = spelling (VocabEntry.mk (L "n e w e s t") 2 6).
Proof.
  assert (Hfit : fits (VocabEntry.mk (L "n e w e s t") 2 6))
    by (vm_compute; reflexivity).
  assert (Hm : merge_entry (L "e s") (VocabEntry.mk (L "n e w e s t") 2 6)
               = Some (VocabEntry.mk (L "n e w es t") 2 6))
    by (vm_compute; reflexivity).
  split; [exact Hfit|]. split; [exact Hm|].
  exact (proj1 (merge_entry_keeps_spelling (L "e s") _ _ Hfit Hm)).
Defined.

(** ** What the induction loop keeps *)

Lemma merge_pass_same_word (best_pair : wstring) (vocabulary vocabulary' : Vocabulary) :
  Forall fits vocabulary ->
  merge_pass best_pair vocabulary = Some vocabulary' ->
  Forall2 same_word vocabulary vocabulary' /\ Forall fits vocabulary'.
Proof.
  intros Hfit. revert vocabulary'.
  induction Hfit as [|e rest He _ IH]; intros vocabulary'; simpl.
  - intros H; injection H as <-. split; constructor.
  - destruct (merge_entry best_pair e) as [e'|] eqn:Ee; [|discriminate].
    destruct (merge_pass best_pair rest) as [rest'|]; [|discriminate].
    intros H; injection H as <-.
    destruct (IH rest' eq_refl) as [Hsame Hfit'].
    pose proof (merge_entry_word best_pair e e' He Ee) as (Hsp & _).
    apply merge_entry_conserved in Ee. destruct Ee as [(Hid & Hfreq & _) Hfe].
    split; constructor; auto. unfold same_word. auto.
Qed.

Lemma same_word_refl (vocabulary : Vocabulary) :
  Forall2 same_word vocabulary vocabulary.
Proof.
  induction vocabulary; constructor; auto. unfold same_word. auto.
Qed.

Lemma same_word_trans (a b c : Vocabulary) :
  Forall2 same_word a b -> Forall2 same_word b c -> Forall2 same_word a c.
Proof.
  intros Hab. revert c. induction Hab as [|x y a b Hxy _ IH]; intros c Hbc.
  - inversion Hbc; subst. constructor.
  - inversion Hbc as [|? z ? c' Hyz Hbc']; subst. constructor; [|auto].
    unfold same_word in *. destruct Hxy as (? & ? & ?), Hyz as (? & ? & ?).
    repeat split; congruence.
Qed.

Lemma merge_loop_same_word (remaining : nat) (merge_iter : Z) (vocabulary : Vocabulary) :
  Forall fits vocabulary ->
  exists final,
    snd (merge_loop remaining merge_iter vocabulary) = Some final /\
    Forall2 same_word vocabulary final /\ Forall fits final.
Proof.
  revert merge_iter vocabulary; induction remaining as [|remaining IH];
    intros merge_iter vocabulary Hfit; cbn [merge_loop].
  - exists vocabulary. simpl. auto using same_word_refl.
  - destruct (find_most_frequent_pair (count_pairs vocabulary))
      as [best_pair best_count].
    destruct (best_count <? 1).
    + exists vocabulary. simpl. auto using same_word_refl.
    + destruct (merge_pass_fits best_pair vocabulary Hfit) as [vocabulary' E].
      rewrite E. apply merge_pass_same_word in E; [|exact Hfit].
      destruct E as [Hsame Hfit'].
      destruct (IH (merge_iter + 1) vocabulary' Hfit')
        as (final & Efinal & Hsame' & Hfit'').
      destruct (merge_loop remaining (merge_iter + 1) vocabulary') as [log r].
      simpl in *. exists final. split; [exact Efinal|].
      split; [eapply same_word_trans; eassumption | exact Hfit''].
Qed.

Lemma bpe_subword_merge_keeps_words_aux (num_merges : Z) (vocabulary : Vocabulary) :
  Forall fits vocabulary ->
  exists final,
    snd (bpe_subword_merge num_merges vocabulary) = Some final /\
    Forall2 same_word vocabulary final.
Proof.
  intros Hfit. unfold bpe_subword_merge.
  destruct (merge_loop_same_word (Z.to_nat num_merges) 0 vocabulary Hfit)
    as (final & E & Hsame & _).
  eauto.
Qed.

(** X11. On a store whose surface forms fit [new_token], the induction loop
    returns a store, whatever [num_merges]: it has as many entries, and each
    entry has the id, the frequency and, separators apart, the characters it
    had. *)
Theorem bpe_subword_merge_keeps_words (num_merges : Z) (vocabulary : Vocabulary) :
  Forall fits vocabulary ->
  exists final,
    snd (bpe_subword_merge num_merges vocabulary) = Some final /\
    length final = length vocabulary /\
    Forall2 same_word vocabulary final.
Proof.
  intros Hfit. unfold bpe_subword_merge.
  destruct (merge_loop_same_word (Z.to_nat num_merges) 0 vocabulary Hfit)
    as (final & E & Hsame & _).
  exists final. split; [exact E|]. split; [|exact Hsame].
  symmetry. apply (Forall2_length Hsame).
Qed.

Lemma bpe_subword_merge_keeps_words_witness :
  Forall fits low_vocab /\
  exists final,
    snd (bpe_subword_merge 50 low_vocab) = Some final /\
    length final = length low_vocab /\
    Forall2 same_word low_vocab final.
Proof.
  assert (Hfit : Forall fits low_vocab)
    by (repeat constructor; vm_compute; reflexivity).
  split; [exact Hfit|].
  exact (bpe_subword_merge_keeps_words 50 low_vocab Hfit).
Defined.

(** X12. For words of 1 to 64 characters without spaces, the conversion to
    subwords followed by the induction loop returns a store, whatever
    [num_merges]; each entry has the id and the frequency of its word, and
    removing the separators from its surface form gives the word back. *)
Theorem subword_pipeline (num_merges : Z) (vocabulary : Vocabulary) :
  Forall (fun e => ~ In space (VocabEntry.token e) /\
                   1 <= Z.of_nat (length (VocabEntry.token e)) <= 64)
         vocabulary ->
  exists subwords final,
    convert_vocab_to_subwords vocabulary = Some subwords /\
    snd (bpe_subword_merge num_merges subwords) = Some final /\
    Forall2 (fun e e' => VocabEntry.id e' = VocabEntry.id e /\
                         VocabEntry.freq e' = VocabEntry.freq e /\
                         spelling e' = VocabEntry.token e)
            vocabulary final.
Proof.
  intros H.
  assert (Hne : Forall (fun e => VocabEntry.token e <> []) vocabulary).
  { eapply Forall_impl; [|exact H]. intros e [_ Hl] E. rewrite E in Hl.
    simpl in Hl. lia. }
  apply convert_vocab_defined in Hne. destruct Hne as [subwords Ec].
  pose proof (convert_vocab_converted _ _ Ec) as Hconv.
  assert (Hboth : Forall2 (fun e e' => VocabEntry.id e' = VocabEntry.id e /\
                                       VocabEntry.freq e' = VocabEntry.freq e /\
                                       spelling e' = VocabEntry.token e /\
                                       fits e')
                          vocabulary subwords).
  { clear Ec. induction Hconv as [|e e' v v' He _ IH]; [constructor|].
    inversion H as [|? ? [Hsp Hl] H']; subst. constructor; [|auto].
    destruct He as (Hid & Hfreq & _ & Hlen & Hword).
    destruct (Hword Hsp) as [Hspell _].
    unfold fits, MAX_TOKEN_LEN. repeat split; auto. lia. }
  assert (Hfit : Forall fits subwords).
  { clear - Hboth. induction Hboth; constructor; tauto. }
  destruct (bpe_subword_merge_keeps_words_aux num_merges subwords Hfit)
    as (final & Ef & Hsame).
  exists subwords, final. split; [exact Ec|]. split; [exact Ef|].
  clear - Hboth Hsame. revert final Hsame.
  induction Hboth as [|e e' v v' He _ IH]; intros final Hsame.
  - inversion Hsame; subst. constructor.
  - inversion Hsame as [|? f ? final' Hf Hsame']; subst.
    constructor; [|auto].
    destruct He as (? & ? & ? & _), Hf as (? & ? & ?).
    repeat split; congruence.
Qed.

Lemma subword_pipeline_witness :
  Forall (fun e => ~ In space (VocabEntry.token e) /\
                   1 <= Z.of_nat (length (VocabEntry.token e)) <= 64)
         [VocabEntry.mk (L "low") 0 5; VocabEntry.mk (L "lower") 1 2] /\
  exists subwords final,
    convert_vocab_to_subwords
      [VocabEntry.mk (L "low") 0 5; VocabEntry.mk (L "lower") 1 2]
    = Some subwords /\
    snd (bpe_subword_merge 50 subwords) = Some final /\
    Forall2 (fun e e' => VocabEntry.id e' = VocabEntry.id e /\
                         VocabEntry.freq e' = VocabEntry.freq e /\
                         spelling e' = VocabEntry.token e)
            [VocabEntry.mk (L "low") 0 5; VocabEntry.mk (L "lower") 1 2] final.
Proof.
  assert (H : Forall (fun e => ~ In space (VocabEntry.token e) /\
                               1 <= Z.of_nat (length (VocabEntry.token e)) <= 64)
                     [VocabEntry.mk (L "low") 0 5; VocabEntry.mk (L "lower") 1 2]).
  { repeat constructor; try (vm_compute; discriminate).
    - vm_compute. intros [H|[H|[H|[]]]]; discriminate.
    - vm_compute. intros [H|[H|[H|[H|[H|[]]]]]]; discriminate. }
  split; [exact H|].
  exact (subword_pipeline 50 _ H).
Defined.

Example subword_pipeline_low_lower :
  snd (bpe_subword_merge 50
         [VocabEntry.mk (L "l o w") 0 5; VocabEntry.mk (L "l o w e r") 1 2])
  = Some [VocabEntry.mk (L "low") 0 5; VocabEntry.mk (L "lower") 1 2].
Proof. vm_compute. reflexivity. Qed.

(** ** The lines of the log *)

Lemma merge_loop_log_length (remaining : nat) (merge_iter : Z) (vocabulary : Vocabulary) :
  (length (fst (merge_loop remaining merge_iter vocabulary)) <= remaining)%nat.
Proof.
  revert merge_iter vocabulary; induction remaining as [|remaining IH];
    intros merge_iter vocabulary; cbn [merge_loop]; [simpl; lia|].
  destruct (find_most_frequent_pair (count_pairs vocabulary))
    as [best_pair best_count].
  destruct (best_count <? 1); [simpl; lia|].
  destruct (merge_pass best_pair vocabulary) as [vocabulary'|]; [|simpl; lia].
  specialize (IH (merge_iter + 1) vocabulary').
  destruct (merge_loop remaining (merge_iter + 1) vocabulary') as [log final].
  simpl in *. lia.
Qed.

Lemma merge_loop_log_lines (remaining : nat) (merge_iter : Z) (vocabulary : Vocabulary)
  (j : nat) (line : log_record) :
  nth_error (fst (merge_loop remaining merge_iter vocabulary)) j = Some line ->
  match line with
  | InfoMerge n _ _ => n = merge_iter + Z.of_nat j + 1
  | InfoStop => S j = length (fst (merge_loop remaining merge_iter vocabulary))
  end.
Proof.
  revert merge_iter vocabulary j; induction remaining as [|remaining IH];
    intros merge_iter vocabulary j; cbn [merge_loop].
  - destruct j; discriminate.
  - destruct (find_most_frequent_pair (count_pairs vocabulary))
      as [best_pair best_count].
    destruct (best_count <? 1).
    + destruct j as [|[|j]]; simpl; try discriminate.
      intros H; injection H as <-. reflexivity.
    + destruct (merge_pass best_pair vocabulary) as [vocabulary'|].
      * specialize (IH (merge_iter + 1) vocabulary').
        destruct (merge_loop remaining (merge_iter + 1) vocabulary')
          as [log final].
        simpl in *. destruct j as [|j]; simpl.
        -- intros H; injection H as <-. lia.
        -- intros H. specialize (IH j H). destruct line; lia.
      * destruct j as [|[|j]]; simpl; try discriminate.
        intros H; injection H as <-. lia.
Qed.

(** X13. The log of the induction loop has at most [num_merges] lines; the
    merge line in position [j], counted from 0, bears the number [j + 1]; the
    stop line, when there is one, is the last line. *)
Theorem bpe_subword_merge_log (num_merges : Z) (vocabulary : Vocabulary) :
  Z.of_nat (length (fst (bpe_subword_merge num_merges vocabulary)))
  <= Z.max 0 num_merges /\
  forall j line,
    nth_error (fst (bpe_subword_merge num_merges vocabulary)) j = Some line ->
    match line with
    | InfoMerge n _ _ => n = Z.of_nat j + 1
    | InfoStop => S j = length (fst (bpe_subword_merge num_merges vocabulary))
    end.
Proof.
  unfold bpe_subword_merge. split.
  - pose proof (merge_loop_log_length (Z.to_nat num_merges) 0 vocabulary). lia.
  - intros j line H. apply merge_loop_log_lines in H.
    destruct line; [lia | exact H].
Qed.

(** ** Every merge fuses a pair *)

Lemma adjacent_occurrences_firstn (key : wstring) (n : nat)
  (symbols : list wstring) :
  (adjacent_occurrences key (firstn n symbols)
   <= adjacent_occurrences key symbols)%nat.
Proof.
  revert n; induction symbols as [|a rest IH]; intros n.
  - rewrite firstn_nil. simpl. lia.
  - destruct n as [|n]; [simpl; lia|].
    destruct rest as [|b r]; [rewrite firstn_cons, firstn_nil; simpl; lia|].
    destruct n as [|n]; [simpl; lia|].
    specialize (IH (S n)). rewrite firstn_cons in IH |- *.
    rewrite firstn_cons.
    change (adjacent_occurrences key (a :: b :: firstn n r))
      with ((if wcs_eqb (pair_key a b) key then 1 else 0)
            + adjacent_occurrences key (b :: firstn n r))%nat.
    change (adjacent_occurrences key (a :: b :: r))
      with ((if wcs_eqb (pair_key a b) key then 1 else 0)
            + adjacent_occurrences key (b :: r))%nat.
    lia.
Qed.

Lemma count_from_no_occurrence (vocabulary : Vocabulary) (i : Z)
  (map : BPE_HashMap) (key : wstring) :
  well_formed map ->
  Forall (fun e => adjacent_occurrences key
                     (stored_symbols (VocabEntry.token e)) = 0%nat)
         vocabulary ->
  recorded_count (count_from i vocabulary map) key = recorded_count map key.
Proof.
  intros Hwf Hzero. revert i map Hwf.
  induction Hzero as [|e rest He _ IH]; intros i map Hwf; simpl; [reflexivity|].
  rewrite IH by (apply well_formed_count_symbols, Hwf).
  rewrite recorded_count_count_symbols by exact Hwf. rewrite He. lia.
Qed.

Lemma find_most_frequent_pair_empty (map : BPE_HashMap) :
  entries map = [] -> find_most_frequent_pair map = ([], 0).
Proof.
  intros H. rewrite find_most_frequent_pair_entries, H. reflexivity.
Qed.

Lemma best_pair_occurs (vocabulary : Vocabulary) (best_pair : wstring)
  (best_count : Z) :
  find_most_frequent_pair (count_pairs vocabulary) = (best_pair, best_count) ->
  1 <= best_count ->
  Exists (fun e => adjacent_occurrences best_pair
                     (wcstok_all (VocabEntry.token e)) <> 0%nat)
         vocabulary.
Proof.
  intros Hfind Hc.
  pose proof (reachable_count_pairs vocabulary) as Hr.
  assert (Hne : entries (count_pairs vocabulary) <> []).
  { intros E. rewrite (find_most_frequent_pair_empty _ E) in Hfind.
    injection Hfind as _ <-. lia. }
  destruct (best_count_greatest _ Hr) as [_ Hbest].
  destruct (Hbest Hne) as [_ Hrec]. rewrite Hfind in Hrec. simpl in Hrec.
  destruct (Forall_Exists_dec
              (fun e => adjacent_occurrences best_pair
                          (stored_symbols (VocabEntry.token e)) = 0%nat)
              (fun e => Nat.eq_dec _ 0) vocabulary) as [Hall|Hex].
  - exfalso. unfold count_pairs in Hrec.
    rewrite (count_from_no_occurrence _ _ _ _ well_formed_create Hall) in Hrec.
    rewrite recorded_count_create in Hrec. lia.
  - eapply Exists_impl; [|exact Hex]. intros e He. cbv beta in *.
    unfold stored_symbols in He.
    pose proof (adjacent_occurrences_firstn best_pair (Z.to_nat MAX_SYMBOLS)
                  (wcstok_all (VocabEntry.token e))).
    lia.
Qed.

Lemma total_symbols_conserved (best_pair : wstring) (vocabulary vocabulary' : Vocabulary) :
  Forall2 (conserved best_pair) vocabulary vocabulary' ->
  (total_symbols vocabulary' <= total_symbols vocabulary)%nat /\
  (Exists (fun e => adjacent_occurrences best_pair
                      (wcstok_all (VocabEntry.token e)) <> 0%nat)
          vocabulary ->
   (total_symbols vocabulary' < total_symbols vocabulary)%nat).
Proof.
  induction 1 as [|e e' v v' He _ [IHle IHlt]]; simpl.
  - split; [lia|]. intros H. inversion H.
  - destruct He as (_ & _ & Hcount & _).
    split; [lia|]. intros Hex. inversion Hex as [? ? Hocc|? ? Hex']; subst.
    + destruct (merge_fires_occurrences best_pair
                  (wcstok_all (VocabEntry.token e))) as (_ & _ & Hzero).
      assert (merge_fires best_pair (wcstok_all (VocabEntry.token e)) <> 0%nat)
        by (intros E; apply Hocc, Hzero, E).
      lia.
    + specialize (IHlt Hex'). lia.
Qed.


(** X14. A merge the loop applies fuses at least one pair: when the best
    count is at least 1 and the merge pass returns a store, that store has
    fewer symbols in all than the one it was given. *)
Theorem merge_pass_progress (vocabulary vocabulary' : Vocabulary)
  (best_pair : wstring) (best_count : Z) :
  find_most_frequent_pair (count_pairs vocabulary) = (best_pair, best_count) ->
  1 <= best_count ->
  merge_pass best_pair vocabulary = Some vocabulary' ->
  (total_symbols vocabulary' < total_symbols vocabulary)%nat.
Proof.
  intros Hfind Hc Hm.
  apply merge_pass_conserved in Hm. destruct Hm as [Hcons _].
  apply (total_symbols_conserved best_pair); [exact Hcons|].
  eapply best_pair_occurs; eassumption.
Qed.

Lemma merge_pass_progress_witness :
  find_most_frequent_pair (count_pairs low_vocab) = (L "s t", 9) /\
  1 <= 9 /\
  merge_pass (L "s t") low_vocab
  = Some [ VocabEntry.mk (L "l o w") 0 5;
           VocabEntry.mk (L "l o w e r") 1 2;
           VocabEntry.mk (L "n e w e st") 2 6;
           VocabEntry.mk (L "w i d e st") 3 3 ] /\
  (total_symbols [ VocabEntry.mk (L "l o w") 0 5;
                   VocabEntry.mk (L "l o w e r") 1 2;
                   VocabEntry.mk (L "n e w e st") 2 6;
                   VocabEntry.mk (L "w i d e st") 3 3 ]
   < total_symbols low_vocab)%nat.
Proof.
  assert (Hfind : find_most_frequent_pair (count_pairs low_vocab) = (L "s t", 9))
    by (vm_compute; reflexivity).
  assert (Hc : 1 <= 9) by lia.
  assert (Hm : merge_pass (L "s t") low_vocab
               = Some [ VocabEntry.mk (L "l o w") 0 5;
                        VocabEntry.mk (L "l o w e r") 1 2;
                        VocabEntry.mk (L "n e w e st") 2 6;
                        VocabEntry.mk (L "w i d e st") 3 3 ])
    by (vm_compute; reflexivity).
  split; [exact Hfind|]. split; [exact Hc|]. split; [exact Hm|].
  exact (merge_pass_progress low_vocab _ (L "s t") 9 Hfind Hc Hm).
Defined.



(** ** The best pair has the greatest weighted count *)

(** X16. When every frequency is non-negative, the best count of an
    iteration is an upper bound of the weighted number of occurrences, among
    the symbols stored, of every key, and when it is at least 1 it is the
    weighted number of occurrences of the best pair. *)
Theorem best_pair_maximises (vocabulary : Vocabulary) (key : wstring) :
  Forall (fun e => 0 <= VocabEntry.freq e) vocabulary ->
  weighted_occurrences stored_symbols key vocabulary
  <= snd (find_most_frequent_pair (count_pairs vocabulary)) /\
  (1 <= snd (find_most_frequent_pair (count_pairs vocabulary)) ->
   weighted_occurrences stored_symbols
     (fst (find_most_frequent_pair (count_pairs vocabulary))) vocabulary
   = snd (find_most_frequent_pair (count_pairs vocabulary))).
Proof.
  intros Hfreq.
  destruct (best_count_greatest _ (reachable_count_pairs vocabulary))
    as [Hle Hbest].
  rewrite <- !recorded_count_count_pairs by exact Hfreq.
  split; [apply Hle|].
  intros Hc. apply Hbest. intros E.
  rewrite (find_most_frequent_pair_empty _ E) in Hc. simpl in Hc. lia.
Qed.

Lemma best_pair_maximises_witness :
  Forall (fun e => 0 <= VocabEntry.freq e) low_vocab /\
  weighted_occurrences stored_symbols (L "l o") low_vocab
  <= snd (find_most_frequent_pair (count_pairs low_vocab)).
Proof.
  assert (Hfreq : Forall (fun e => 0 <= VocabEntry.freq e) low_vocab)
    by (repeat constructor; simpl; lia).
  split; [exact Hfreq|].
  exact (proj1 (best_pair_maximises low_vocab (L "l o") Hfreq)).
Defined.

(** ** Stores without pairs *)

Lemma count_from_short (vocabulary : Vocabulary) (i : Z) (map : BPE_HashMap) :
  Forall (fun e => (symbol_count e < 2)%nat) vocabulary ->
  count_from i vocabulary map = map.
Proof.
  intros H. revert i map. induction H as [|e rest He _ IH]; intros i map;
    simpl; [reflexivity|].
  rewrite IH. unfold stored_symbols, symbol_count in *.
  rewrite MAX_SYMBOLS_nat.
  destruct (wcstok_all (VocabEntry.token e)) as [|a [|b r]];
    [reflexivity | reflexivity | simpl in He; lia].
Qed.

(** X17. With [num_merges] at most 0 the induction loop prints nothing and
    leaves the store as it is. Otherwise, on a store in which no entry has
    two symbols (the empty store is one) it prints the stop line in its first
    iteration and leaves the store as it is. *)
Theorem bpe_subword_merge_no_pairs (num_merges : Z) (vocabulary : Vocabulary) :
  (num_merges <= 0 ->
   bpe_subword_merge num_merges vocabulary = ([], Some vocabulary)) /\
  (0 < num_merges ->
   Forall (fun e => (symbol_count e < 2)%nat) vocabulary ->
   bpe_subword_merge num_merges vocabulary = ([InfoStop], Some vocabulary)).
Proof.
  unfold bpe_subword_merge. split.
  - intros H. replace (Z.to_nat num_merges) with 0%nat by lia. reflexivity.
  - intros Hpos Hshort.
    destruct (Z.to_nat num_merges) as [|n] eqn:E; [lia|].
    apply merge_loop_stops. unfold count_pairs.
    rewrite count_from_short by exact Hshort.
    rewrite (find_most_frequent_pair_empty _ entries_create). simpl. lia.
Qed.

(** ** Splitting a text into words *)

Lemma wcstok_delims_from_app (delimiters cur a b : wstring) (d : wchar_t) :
  is_delim delimiters d = true ->
  wcstok_delims_from delimiters cur (a ++ d :: b)
  = wcstok_delims_from delimiters cur a ++ wcstok_delims delimiters b.
Proof.
  intros Hd. revert cur; induction a as [|c a IH]; intros cur.
  - simpl. rewrite Hd. destruct cur; reflexivity.
  - simpl. destruct (is_delim delimiters c).
    + destruct cur; rewrite IH; reflexivity.
    + apply IH.
Qed.

Lemma wcstok_delims_from_words (delimiters cur s : wstring) :
  (forall c, In c cur -> is_delim delimiters c = false) ->
  Forall (fun word => word <> [] /\
                      forall c, In c word -> is_delim delimiters c = false)
         (wcstok_delims_from delimiters cur s).
Proof.
  revert cur; induction s as [|c s IH]; intros cur Hcur; simpl.
  - destruct cur; constructor; [split; [discriminate | exact Hcur] | constructor].
  - destruct (is_delim delimiters c) eqn:E.
    + destruct cur.
      * apply IH. intros ? [].
      * constructor; [split; [discriminate | exact Hcur]|].
        apply IH. intros ? [].
    + apply IH. intros x Hx. apply in_app_or in Hx.
      destruct Hx as [Hx|[<-|[]]]; auto.
Qed.

Lemma wcstok_delims_from_no_delim (delimiters cur s : wstring) :
  (forall c, In c s -> is_delim delimiters c = false) ->
  wcstok_delims_from delimiters cur s
  = match cur ++ s with [] => [] | _ :: _ => [cur ++ s] end.
Proof.
  revert cur; induction s as [|c s IH]; intros cur Hs; simpl.
  - rewrite app_nil_r. reflexivity.
  - rewrite (Hs c (or_introl eq_refl)).
    rewrite IH by (intros x Hx; apply Hs; right; exact Hx).
    rewrite <- app_assoc. reflexivity.
Qed.

Lemma wcstok_delims_from_all_delims (delimiters s : wstring) :
  (forall c, In c s -> is_delim delimiters c = true) ->
  wcstok_delims_from delimiters [] s = [].
Proof.
  induction s as [|c s IH]; intros Hs; simpl; [reflexivity|].
  rewrite (Hs c (or_introl eq_refl)).
  apply IH. intros x Hx. apply Hs. right. exact Hx.
Qed.

Lemma wcstok_delims_space_from (cur s : wstring) :
  wcstok_delims_from [space] cur s = wcstok_from cur s.
Proof.
  revert cur; induction s as [|c s IH]; intros cur; simpl; [reflexivity|].
  rewrite orb_false_r. destruct (c =? space); [destruct cur|]; rewrite IH;
    reflexivity.
Qed.

(** X18. The splitting of [tokenize] yields words that are not empty and
    hold no delimiter; the words of a text cut by a delimiter are those of
    the part before it followed by those of the part after it; a text
    without delimiters is one word, and a text of delimiters only has none.
    With the space as only delimiter it is the splitting of a surface form
    into symbols. *)
Theorem wcstok_delims_spec (delimiters a b : wstring) (d : wchar_t) :
  Forall (fun word => word <> [] /\
                      forall c, In c word -> is_delim delimiters c = false)
         (wcstok_delims delimiters a) /\
  (is_delim delimiters d = true ->
   wcstok_delims delimiters (a ++ d :: b)
   = wcstok_delims delimiters a ++ wcstok_delims delimiters b) /\
  (a <> [] -> (forall c, In c a -> is_delim delimiters c = false) ->
   wcstok_delims delimiters a = [a]) /\
  ((forall c, In c a -> is_delim delimiters c = true) ->
   wcstok_delims delimiters a = []) /\
  wcstok_delims [space] a = wcstok_all a.
Proof.
  unfold wcstok_delims. split; [|split; [|split; [|split]]].
  - apply wcstok_delims_from_words. intros ? [].
  - intros Hd. apply wcstok_delims_from_app. exact Hd.
  - intros Hne Ha. rewrite wcstok_delims_from_no_delim by exact Ha.
    simpl. destruct a; [congruence | reflexivity].
  - apply wcstok_delims_from_all_delims.
  - apply wcstok_delims_space_from.
Qed.

Example wcstok_delims_hello :
  wcstok_delims delims (L "Although post-structuralist critiques, (late) modernity!")
  = [L "Although"; L "post-structuralist"; L "critiques"; L "late"; L "modernity"].
Proof. vm_compute. reflexivity. Qed.

(** ** The tokens and the store of [tokenize] *)

Section TokenizerProperties.

Variable towlower : wchar_t -> wchar_t.

Lemma tokenize_text_store (wtext : wstring) (vocabulary : Vocabulary) :
  snd (tokenize_text towlower wtext vocabulary)
  = tokenize (List.map (to_lowercase towlower) (wcstok_delims delims wtext))
             vocabulary.
Proof.
  unfold tokenize_text, tokenize. cbn [snd]. rewrite firstn_map. reflexivity.
Qed.

(** X19. [tokenize] stores at most [MAX_TOKENS] tokens, as many as the text
    has words up to that number; each is shorter than [MAX_TOKEN_LEN] and is
    the beginning of the lower-cased word the store receives, the whole word
    when that one is shorter than [MAX_TOKEN_LEN]. The store is the one built
    by [add_to_vocabulary] from the lower-cased words, so that a well-formed
    store stays well formed, and a text of delimiters only leaves no token
    and the store as it is. *)
Theorem tokenize_text_spec (wtext : wstring) (vocabulary : Vocabulary) :
  Z.of_nat (length (fst (tokenize_text towlower wtext vocabulary)))
  = Z.min MAX_TOKENS (Z.of_nat (length (wcstok_delims delims wtext))) /\
  Forall (fun token => Z.of_nat (length token) < MAX_TOKEN_LEN)
         (fst (tokenize_text towlower wtext vocabulary)) /\
  (forall j token,
     nth_error (fst (tokenize_text towlower wtext vocabulary)) j = Some token ->
     exists word,
       nth_error (wcstok_delims delims wtext) j = Some word /\
       token = firstn (Z.to_nat (MAX_TOKEN_LEN - 1))
                      (to_lowercase towlower word) /\
       (Z.of_nat (length word) < MAX_TOKEN_LEN ->
        token = to_lowercase towlower word)) /\
  snd (tokenize_text towlower wtext vocabulary)
  = tokenize (List.map (to_lowercase towlower) (wcstok_delims delims wtext))
             vocabulary /\
  (store_ok vocabulary -> store_ok (snd (tokenize_text towlower wtext vocabulary))) /\
  ((forall c, In c wtext -> is_delim delims c = true) ->
   tokenize_text towlower wtext vocabulary = ([], vocabulary)).
Proof.
  split; [|split; [|split; [|split; [|split]]]].
  - unfold tokenize_text. cbn [fst]. rewrite !length_map, length_firstn.
    unfold MAX_TOKENS. lia.
  - unfold tokenize_text. cbn [fst]. apply Forall_forall. intros token Hin.
    apply in_map_iff in Hin. destruct Hin as (word & <- & _).
    rewrite length_firstn. unfold MAX_TOKEN_LEN. lia.
  - intros j token Hj. unfold tokenize_text in Hj. cbn [fst] in Hj.
    rewrite !nth_error_map in Hj.
    destruct (nth_error (firstn (Z.to_nat MAX_TOKENS)
                                (wcstok_delims delims wtext)) j)
      as [word|] eqn:E; [|discriminate].
    cbn [option_map] in Hj.
    assert (Et : token = firstn (Z.to_nat (MAX_TOKEN_LEN - 1))
                                (to_lowercase towlower word)) by congruence.
    clear Hj. subst token. exists word.
    assert (Hword : nth_error (wcstok_delims delims wtext) j = Some word).
    { destruct (Nat.lt_ge_cases j (Z.to_nat MAX_TOKENS)) as [Hlt|Hge].
      - rewrite nth_error_firstn in E.
        apply Nat.ltb_lt in Hlt. rewrite Hlt in E. exact E.
      - assert (Hnone : nth_error (firstn (Z.to_nat MAX_TOKENS)
                                          (wcstok_delims delims wtext)) j = None).
        { apply nth_error_None. rewrite length_firstn. lia. }
        congruence. }
    split; [exact Hword|].
    split; [reflexivity|].
    intros Hlen. apply firstn_all2.
    assert (Hc : forall s, (length (c_string s) <= length s)%nat).
    { induction s as [|c s IH]; simpl; [lia|].
      destruct (c =? 0); simpl; lia. }
    unfold to_lowercase. specialize (Hc (List.map towlower word)).
    rewrite length_map in Hc. unfold MAX_TOKEN_LEN in *. lia.
  - apply tokenize_text_store.
  - intros Hok. unfold tokenize_text. cbn [snd]. apply store_ok_fold, Hok.
  - intros Hall. unfold tokenize_text, wcstok_delims.
    rewrite wcstok_delims_from_all_delims by exact Hall.
    rewrite firstn_nil. reflexivity.
Qed.

End TokenizerProperties.

Example tokenize_text_low :
  tokenize_text (fun c => if (65 <=? c) && (c <=? 90) then c + 32 else c)
                (L "Low, lower. LOW!") []
  = ([L "low"; L "lower"; L "low"],
     [VocabEntry.mk (L "low") 0 2; VocabEntry.mk (L "lower") 1 1]).
Proof. vm_compute. reflexivity. Qed.
